(** * jsdom: the window's runtime-management surface

    A shallow embedding of the console router (class [VirtualConsole])
    and of the [Window] constructor (timers, recursive close, the
    cookie-aware XMLHttpRequest wrapper, [getComputedStyle], the deferred
    load task), with the properties the specification states about them.

    Calls that leave the modelled code (a sink's method, the host's
    [clearTimeout], the underlying request object, the document) are
    recorded, in order, in a trace. *)

From Stdlib Require Import ZArith String Ascii List Lia.
From stdpp Require Import base option list strings gmap.

Local Open Scope string_scope.
Local Open Scope list_scope.

(** ** JavaScript values *)

Module Js.

(** The values the modelled code handles.  An object carries its identity
    and its own enumerable properties in [Object.keys] order; a function
    value is opaque and named. *)
#[warnings="-register-all"]
Inductive value : Type :=
| VUndefined
| VNull
| VBool (b : bool)
| VNum (n : Z)
| VStr (s : string)
| VFun (name : string)
| VObj (id : nat) (props : list (string * value)).

Inductive exn : Type :=
| TypeError
| UnhandledError (args : list value).

Inductive completion (A : Type) : Type :=
| Normal (a : A)
| Throw (e : exn).
Arguments Normal {A} a.
Arguments Throw {A} e.

(** A call of a function value: [f.apply(this, args)]. *)
Inductive call : Type :=
| Call (f : value) (this : value) (args : list value).

(** Computations that call out and may throw: the calls made so far and
    how the computation completed. *)
Definition Eff (A : Type) : Type := (list call * completion A)%type.

Definition ret {A} (a : A) : Eff A := ([], Normal a).
Definition throw {A} (e : exn) : Eff A := ([], Throw e).
Definition bind {A B} (m : Eff A) (k : A -> Eff B) : Eff B :=
  match m with
  | (t, Normal a) => let '(t', r) := k a in (t ++ t', r)
  | (t, Throw e) => (t, Throw e)
  end.

Fixpoint assoc (k : string) (props : list (string * value)) : value :=
  match props with
  | [] => VUndefined
  | (k', v) :: rest => if String.eqb k k' then v else assoc k rest
  end.

(** [o[k]]: reading a property of [undefined] or [null] throws, a
    primitive has none of the properties read here, an absent property
    reads as [undefined]. *)
Definition get (o : value) (k : string) : completion value :=
  match o with
  | VUndefined | VNull => Throw TypeError
  | VObj _ props => Normal (assoc k props)
  | _ => Normal VUndefined
  end.

(** [Object.keys(o)] *)
Definition keys (o : value) : completion (list string) :=
  match o with
  | VUndefined | VNull => Throw TypeError
  | VObj _ props => Normal (map fst props)
  | _ => Normal []
  end.

(** [typeof v === "function"] *)
Definition is_function (v : value) : bool :=
  match v with VFun _ => true | _ => false end.

(** ToBoolean *)
Definition truthy (v : value) : bool :=
  match v with
  | VUndefined | VNull => false
  | VBool b => b
  | VNum n => negb (n =? 0)%Z
  | VStr s => negb (String.eqb s "")
  | VFun _ | VObj _ _ => true
  end.

(** [f.apply(this, args)] for a value [f] that was read from an object:
    anything but a function throws. *)
Definition apply (f : value) (this : value) (args : list value) : Eff unit :=
  if is_function f then ([Call f this args], Normal tt) else throw TypeError.

(** [arguments[i]] / the i-th formal parameter *)
Definition arg (i : nat) (args : list value) : value := nth i args VUndefined.

End Js.

(** ** The console router (class [VirtualConsole]) *)

Module VirtualConsole.
Import Js.

(** The three closures the file creates.  An arrow function has no
    [arguments] of its own: inside the arrow of lines 20-22 the name
    denotes the [arguments] object of the enclosing [sendTo] call, which
    the closure therefore captures together with [anyConsole] and
    [method]. *)
Inductive listener : Type :=
| LNoop                                                       (* () => { } *)
| LForward (anyConsole : value) (method : string) (arguments : list value)
| LJsdomError (anyConsole : value).       (* e => anyConsole.error(e.stack, e.detail) *)

(** Node's [EventEmitter]: per event name, the listeners in the order
    they were added. *)
Record t : Type := mk { _events : gmap string (list listener) }.

Definition listeners (this : t) (type : string) : list listener :=
  default [] (_events this !! type).

(** [this.on(type, l)] appends. *)
Definition on (this : t) (type : string) (l : listener) : t :=
  mk (<[type := listeners this type ++ [l]]> (_events this)).

Definition EventEmitter : t := mk ∅.

(** [constructor()] *)
Definition new : t := on EventEmitter "error" LNoop.

(** Calling a listener with the emitted arguments. *)
Definition call_listener (l : listener) (emitted : list value) : Eff unit :=
  match l with
  | LNoop => ret tt
  | LForward anyConsole method arguments =>
      match get anyConsole method with
      | Normal f => apply f anyConsole arguments
      | Throw e => throw e
      end
  | LJsdomError anyConsole =>
      let e := arg 0 emitted in
      match get anyConsole "error" with
      | Throw x => throw x
      | Normal f =>
          match get e "stack" with
          | Throw x => throw x
          | Normal stack =>
              match get e "detail" with
              | Throw x => throw x
              | Normal detail => apply f anyConsole [stack; detail]
              end
          end
      end
  end.

Fixpoint call_listeners (ls : list listener) (emitted : list value) : Eff unit :=
  match ls with
  | [] => ret tt
  | l :: rest => bind (call_listener l emitted) (fun _ => call_listeners rest emitted)
  end.

(** [this.emit(type, ...args)]: the listeners of [type] are called in
    order with [args]; an exception of a listener propagates; ["error"]
    without a listener throws; the result tells whether there were
    listeners. *)
Definition emit (this : t) (type : string) (args : list value) : Eff bool :=
  match listeners this type with
  | [] => if String.eqb type "error" then throw (UnhandledError args) else ret false
  | ls => bind (call_listeners ls args) (fun _ => ret true)
  end.

(** The loop of lines 18-24 over [Object.keys(anyConsole)]. *)
Definition register_methods (anyConsole : value) (arguments : list value)
    (ks : list string) (this : t) : t :=
  fold_left
    (fun r method =>
       match get anyConsole method with
       | Normal f => if is_function f then on r method (LForward anyConsole method arguments) else r
       | Throw _ => r
       end)
    ks this.

(** The value of [options] after lines 14-16. *)
Definition options_of (arguments : list value) : value :=
  match arg 1 arguments with
  | VUndefined => VObj 0 []
  | o => o
  end.

(** [sendTo(anyConsole, options)], called with the argument list
    [arguments].  The router is returned as it is when the call
    completes, normally or not. *)
Definition sendTo (this : t) (arguments : list value) : t * completion unit :=
  let anyConsole := arg 0 arguments in
  let options := options_of arguments in
  match keys anyConsole with
  | Throw e => (this, Throw e)
  | Normal ks =>
      let this1 := register_methods anyConsole arguments ks this in
      match get options "omitJsdomErrors" with
      | Throw e => (this1, Throw e)
      | Normal omit =>
          if truthy omit then (this1, Normal tt)
          else (on this1 "jsdomError" (LJsdomError anyConsole), Normal tt)
      end
  end.

(** [options.omitJsdomErrors] is set: the call has an object as its
    second argument, and the object's [omitJsdomErrors] is truthy. *)
Definition omitJsdomErrors_set (arguments : list value) : bool :=
  match arg 1 arguments with
  | VObj _ props => truthy (assoc "omitJsdomErrors" props)
  | _ => false
  end.

(** The keys among [ks] under which the loop of lines 18-24 adds a
    listener for the event [name]. *)
Definition forwarded (anyConsole : value) (name : string) (ks : list string) : list string :=
  List.filter
    (fun method =>
       String.eqb method name &&
       match get anyConsole method with Normal f => is_function f | Throw _ => false end)
    ks.

End VirtualConsole.

(** ** The window (function [Window]): timers, close, the load task *)

Module Window.

(** The host's scheduling functions, passed to [startTimer] as [startFn]
    and [stopFn]. *)
Inductive startFn : Type := setTimeout | setInterval.
Inductive stopFn : Type := clearTimeout | clearInterval.

(** What the host's [setTimeout] and [setInterval] return: a fresh
    object on every call, here the value of a counter kept by the host. *)
Definition handle : Type := nat.
Definition host : Type := nat.

(** The parts of the document that [close] and the load task read. *)
Record document : Type := mkDocument {
  body : bool;                (* document.body is there *)
  has_close : bool;           (* document.close is there *)
  readyState : string
}.

(** A window: its identity, [_document] ([None] once deleted),
    [__timers], and the child windows [window[0]], ...,
    [window[length - 1]]. *)
#[warnings="-register-all"]
Inductive window : Type :=
| Win (id : nat) (_document : option document)
      (__timers : list (handle * stopFn)) (frames : list window).

Definition wid (w : window) : nat := let '(Win i _ _ _) := w in i.
Definition _document (w : window) : option document := let '(Win _ d _ _) := w in d.
Definition __timers (w : window) : list (handle * stopFn) := let '(Win _ _ t _) := w in t.
Definition frames (w : window) : list window := let '(Win _ _ _ k) := w in k.

Definition set_timers (ts : list (handle * stopFn)) (w : window) : window :=
  let '(Win i d _ k) := w in Win i d ts k.

(** The calls that leave the window, each with the window it is made
    for; [CloseReturn] marks the point where [close()] of a window
    returns. *)
Inductive event : Type :=
| HostStart (f : startFn) (callback : nat) (ms : Z) (res : handle)
| HostStop (f : stopFn) (this : nat) (h : handle)        (* stopFn.call(window, h) *)
| EventsCleared (w : nat)                                (* impl._events = Object.create(null) *)
| BodyCleared (w : nat)                                  (* document.body.innerHTML = "" *)
| DocListenersCleared (w : nat)                          (* document._listeners = Object.create(null) *)
| DocClose (w : nat)                                     (* document.close() *)
| CloseReturn (w : nat)
| CreateEvent (w : nat) (interface : string)             (* document.createEvent *)
| InitEvent (w : nat) (type : string)
| DispatchEvent (w : nat)                                (* window.dispatchEvent(ev) *)
| DocAddEventListener (w : nat) (type : string).

(** *** Timers *)

Definition stop_of (f : startFn) : stopFn :=
  match f with setTimeout => clearTimeout | setInterval => clearInterval end.

(** [startTimer(window, startFn, stopFn, callback, ms)] *)
Definition startTimer (w : window) (h : host) (start : startFn) (stop : stopFn)
    (callback : nat) (ms : Z) : window * host * handle * list event :=
  let res := h in
  (set_timers (__timers w ++ [(res, stop)]) w, S h, res, [HostStart start callback ms res]).

(** The loop of [stopTimer]: the first entry whose handle is [id] is
    stopped and spliced out. *)
Fixpoint stopTimer_loop (this : nat) (id : handle) (ts : list (handle * stopFn))
    : list (handle * stopFn) * list event :=
  match ts with
  | [] => ([], [])
  | t :: rest =>
      if Nat.eqb (fst t) id then (rest, [HostStop (snd t) this id])
      else let '(rest', ev) := stopTimer_loop this id rest in (t :: rest', ev)
  end.

(** [stopTimer(window, id)]; [None] is [undefined]. *)
Definition stopTimer (w : window) (id : option handle) : window * list event :=
  match id with
  | None => (w, [])
  | Some id =>
      let '(ts, ev) := stopTimer_loop (wid w) id (__timers w) in (set_timers ts w, ev)
  end.

(** [stopAllTimers(window)] *)
Definition stopAllTimers (w : window) : window * list event :=
  (set_timers [] w, map (fun t => HostStop (snd t) (wid w) (fst t)) (__timers w)).

(** The timer methods of a window, as a script calls them. *)
Inductive timer_call : Type :=
| CallSetTimeout (callback : nat) (ms : Z)
| CallSetInterval (callback : nat) (ms : Z)
| CallClearTimeout (id : option handle)
| CallClearInterval (id : option handle).

Definition timer_step (c : timer_call) (st : window * host) : window * host * list event :=
  let '(w, h) := st in
  match c with
  | CallSetTimeout fn ms =>
      let '(w', h', _, ev) := startTimer w h setTimeout clearTimeout fn ms in (w', h', ev)
  | CallSetInterval fn ms =>
      let '(w', h', _, ev) := startTimer w h setInterval clearInterval fn ms in (w', h', ev)
  | CallClearTimeout id | CallClearInterval id =>
      let '(w', ev) := stopTimer w id in (w', h, ev)
  end.

Fixpoint timer_run (cs : list timer_call) (st : window * host) : window * host * list event :=
  match cs with
  | [] => (st, [])
  | c :: rest =>
      let '(st1, ev1) := timer_step c st in
      let '(st2, ev2) := timer_run rest st1 in
      (st2, ev1 ++ ev2)
  end.

(** *** close *)

(** A computation of [close]: nothing when the recursion bound is
    used up, else the result and the events. *)
Definition M (A : Type) : Type := option (A * list event).
Definition mret {A} (a : A) : M A := Some (a, []).
Definition mbind {A B} (m : M A) (k : A -> M B) : M B :=
  match m with
  | None => None
  | Some (a, t) => match k a with None => None | Some (b, t') => Some (b, t ++ t') end
  end.
Definition emit {A} (a : A) (t : list event) : M A := Some (a, t).

Fixpoint forM {A B} (f : A -> M B) (l : list A) : M (list B) :=
  match l with
  | [] => mret []
  | a :: rest => mbind (f a) (fun b => mbind (forM f rest) (fun bs => mret (b :: bs)))
  end.

(** [windowCleaner(windowToClean)] inside [currentWindow.close()];
    [close_child] is [windowToClean.close()]. *)
Fixpoint windowCleaner (close_child : window -> M window) (currentWindow : nat)
    (windowToClean : window) : M window :=
  match windowToClean with
  | Win i d ts kids =>
      mbind (forM (windowCleaner close_child currentWindow) kids) (fun kids' =>
      let w := Win i d ts kids' in
      if Nat.eqb i currentWindow then mret w else close_child w)
  end.

(** Lines 260-272, as calls on the document; what the document's own
    code does when its body is emptied is not followed here. *)
Definition close_document (w : window) : window * list event :=
  match w with
  | Win i (Some d) ts kids =>
      (Win i None ts kids,
       (if body d then [BodyCleared i] else []) ++
       (if has_close d then [DocListenersCleared i; DocClose i] else []))
  | Win i None ts kids => (w, [])
  end.

(** [this.close()]; the bound counts the nesting of [close] calls. *)
Fixpoint close (fuel : nat) (this : window) : M window :=
  match fuel with
  | O => None
  | S fuel =>
      mbind (windowCleaner (close fuel) (wid this) this) (fun this1 =>
      let '(this2, ev_doc) := close_document this1 in
      let '(this3, ev_timers) := stopAllTimers this2 in
      emit this3 ([EventsCleared (wid this)] ++ ev_doc ++ ev_timers ++ [CloseReturn (wid this)]))
  end.

Fixpoint height (w : window) : nat :=
  match w with
  | Win _ _ _ kids => S (fold_right (fun k n => Nat.max (height k) n) 0 kids)
  end.

(** *** The deferred load task (the [process.nextTick] callback) *)

Definition loadTask (w : window) : list event :=
  match _document w with
  | None => []                                  (* window might've been closed already *)
  | Some d =>
      [CreateEvent (wid w) "HTMLEvents"; InitEvent (wid w) "load"] ++
      (if String.eqb (readyState d) "complete" then [DispatchEvent (wid w)]
       else [DocAddEventListener (wid w) "load"])
  end.

(** *** Reading a trace *)

(** The registry entries the [HostStart] events of a trace stand for,
    in order. *)
Definition registered (tr : list event) : list (handle * stopFn) :=
  flat_map (fun e => match e with
                     | HostStart f _ _ res => [(res, stop_of f)]
                     | _ => []
                     end) tr.

(** The windows whose [close()] returns in a trace, in order. *)
Definition closes (tr : list event) : list nat :=
  flat_map (fun e => match e with CloseReturn i => [i] | _ => [] end) tr.

(** A list without the later repetitions of its elements. *)
Fixpoint firsts (l : list nat) : list nat :=
  match l with
  | [] => []
  | x :: rest => x :: filter (fun y => y <> x) (firsts rest)
  end.

(** The windows of a frame tree, depth first, children before their
    parent. *)
Fixpoint ids (w : window) : list nat :=
  match w with
  | Win i _ _ kids => flat_map ids kids ++ [i]
  end.

(** A frame tree with every window closed. *)
Fixpoint closed (w : window) : window :=
  match w with
  | Win i _ _ kids => Win i None [] (map closed kids)
  end.

(** What lines 257-274 of [close] do to the outside for a window in
    state [w]. *)
(** A window with two nested child frames, each with a document and
    pending timers. *)
Definition nested_frames : window :=
  Win 1 (Some (mkDocument true true "complete")) [(4, clearTimeout); (6, clearInterval)]
    [Win 2 (Some (mkDocument true true "loading")) [(5, clearInterval)]
       [Win 3 (Some (mkDocument false true "loading")) [(7, clearTimeout)] []]].

Definition teardown_events (w : window) : list event :=
  [EventsCleared (wid w)] ++ snd (close_document w) ++
  map (fun t => HostStop (snd t) (wid w) (fst t)) (__timers w) ++ [CloseReturn (wid w)].

(** The stop calls of a trace, as registry entries, in order. *)
Definition stopped (tr : list event) : list (handle * stopFn) :=
  flat_map (fun e => match e with
                     | HostStop f _ h => [(h, f)]
                     | _ => []
                     end) tr.

(** The handles of a registry are distinct and lie between the host's
    counter at the start and its counter now. *)
Definition registry_ok (h0 h : host) (ts : list (handle * stopFn)) : Prop :=
  NoDup (map fst ts) /\ Forall (fun t => h0 <= fst t < h) ts.

(** The calls of a trace on documents and on the host. *)
Definition effects (tr : list event) : list event :=
  List.filter (fun e => match e with
                        | EventsCleared _ | CloseReturn _ => false
                        | _ => true
                        end) tr.

(** What closing does to the document and the timers of one window, and
    of all windows of a tree, children first. *)
Definition own_effects (w : window) : list event :=
  snd (close_document w) ++ map (fun t => HostStop (snd t) (wid w) (fst t)) (__timers w).

Fixpoint all_effects (w : window) : list event :=
  match w with
  | Win i d ts kids => flat_map all_effects kids ++ own_effects (Win i d ts [])
  end.

End Window.

(** ** getComputedStyle *)

Module Css.

(** A declaration block as the resolver reads it ([rule.style] of a
    sheet's rule, [node.style] of the element): the property names in
    item order, each with its value and priority. *)
Definition style : Type := list (string * (string * string)).

Definition getPropertyValue (s : style) (property : string) : string :=
  match List.find (fun d => String.eqb (fst d) property) s with
  | Some d => fst (snd d)
  | None => ""
  end.

Definition getPropertyPriority (s : style) (property : string) : string :=
  match List.find (fun d => String.eqb (fst d) property) s with
  | Some d => snd (snd d)
  | None => ""
  end.

(** The block [getComputedStyle] fills and returns, [new
    CSSStyleDeclaration()] of the package cssstyle, as an interface:
    the empty block, [cs.setProperty(property, value, priority)], and
    what [cs.getPropertyValue(property)] reads.  Whether a write is
    taken (the package drops properties it does not know and values its
    setters reject) and what is read after it are the block's. *)
Class Declaration (B : Type) : Type := {
  new_block : B;
  setProperty : string -> string -> string -> B -> B;
  read_value : B -> string -> string
}.

Definition removeProperty (property : string) (s : style) : style :=
  List.filter (fun d => negb (String.eqb (fst d) property)) s.

Fixpoint upsert (property value priority : string) (s : style) : style :=
  match s with
  | [] => [(property, (value, priority))]
  | d :: rest =>
      if String.eqb (fst d) property then (property, (value, priority)) :: rest
      else d :: upsert property value priority rest
  end.

(** Blocks for the examples, kept as lists: an empty value removes the
    property; any other value is taken if [accepts] says so, and then
    replaces the one held for the name or is added as the last item; a
    write that is not taken changes nothing. *)
Definition checked_setProperty (accepts : string -> string -> bool)
    (property value priority : string) (cs : style) : style :=
  if String.eqb value "" then removeProperty property cs
  else if accepts property value then upsert property value priority cs
  else cs.

Definition checked_block (accepts : string -> string -> bool) : Declaration style := {|
  new_block := [];
  setProperty := checked_setProperty accepts;
  read_value := getPropertyValue
|}.

(** The block that takes every write. *)
Definition taking_block : Declaration style := checked_block (fun _ _ => true).

Fixpoint has_suffix (suffix s : string) : bool :=
  String.eqb suffix s ||
  match s with
  | EmptyString => false
  | String _ s' => has_suffix suffix s'
  end.

(** A check like that of the package's setter for [width]: a length
    needs its unit. *)
Definition lengths_need_units (property value : string) : bool :=
  if String.eqb property "width" then has_suffix "px" value else true.

(** A rule object as the resolver reads it: [selectorText], [style],
    [media] and [cssRules], each of which a rule may lack (a style
    rule has no [media] and no [cssRules], an import rule has a [media]
    list and no [cssRules]). *)
#[warnings="-register-all"]
Inductive rule : Type :=
| Rule (selectorText : option string) (rstyle : style)
       (media : option (list string)) (cssRules : option (list rule)).

Definition selectorText (r : rule) : option string := let '(Rule s _ _ _) := r in s.
Definition rstyle (r : rule) : style := let '(Rule _ s _ _) := r in s.
Definition media (r : rule) : option (list string) := let '(Rule _ _ m _) := r in m.
Definition cssRules (r : rule) : option (list rule) := let '(Rule _ _ _ c) := r in c.

(** A style sheet: its [cssRules]. *)
Definition sheet : Type := list rule.

(** An element: its inline [style], what [matches(selector)] answers
    ([None] when it throws), and [ownerDocument.styleSheets]. *)
Record element : Type := mkElement {
  estyle : style;
  matches : string -> option bool;
  styleSheets : list sheet
}.

(** *** [selectorText.split(cssSelectorSplitRE)] *)

Definition comma : ascii := ","%char.
Definition dquote : ascii := ascii_of_nat 34.
Definition squote : ascii := ascii_of_nat 39.

(** The longest prefix of [s] that [(?:[^,"']|"[^"]*"|'[^']*')+]
    matches, and what follows it; [inquote q] is entered after an
    opening quote [q] and answers only if [q] comes again. *)
Fixpoint scan (s : string) : string * string :=
  match s with
  | EmptyString => (EmptyString, EmptyString)
  | String c s' =>
      if Ascii.eqb c comma then (EmptyString, s)
      else if Ascii.eqb c dquote || Ascii.eqb c squote then
        match inquote c s' with
        | Some (m, r) => (String c m, r)
        | None => (EmptyString, s)
        end
      else let '(m, r) := scan s' in (String c m, r)
  end
with inquote (q : ascii) (s : string) : option (string * string) :=
  match s with
  | EmptyString => None
  | String c s' =>
      if Ascii.eqb c q then let '(m, r) := scan s' in Some (String c m, r)
      else match inquote q s' with
           | Some (m, r) => Some (String c m, r)
           | None => None
           end
  end.

(** The loop of [split] for a separator with one capturing group that
    matches no empty string: [pending] is the text since the end of the
    last match, [s] the text from the position tried next.  A match at
    that position closes [pending] and adds the captured text; no match
    moves one character on.  Every step consumes a character, so the
    length of the text is bound enough. *)
Fixpoint split_loop (fuel : nat) (pending s : string) : list string :=
  match fuel with
  | O => [String.append pending s]
  | S fuel =>
      match s with
      | EmptyString => [pending]
      | String c s' =>
          match scan s with
          | (EmptyString, _) => split_loop fuel (String.append pending (String c EmptyString)) s'
          | (m, rest) => pending :: m :: split_loop fuel EmptyString rest
          end
      end
  end.

Definition split (s : string) : list string :=
  split_loop (S (String.length s)) EmptyString s.

(** *** The resolver *)

(** [matchesDontThrow(el, selector)] *)
Definition matchesDontThrow (el : element) (selector : string) : bool :=
  match matches el selector with
  | Some b => b
  | None => false
  end.

(** [Array.prototype.indexOf.call(rule.media, "screen") !== -1] *)
Definition has_screen (m : list string) : bool :=
  existsb (fun x => String.eqb x "screen") m.

Section Resolver.
Context {B : Type} {D : Declaration B}.

(** [forEach.call(st, property => cs.setProperty(property,
    st.getPropertyValue(property), st.getPropertyPriority(property)))] *)
Definition copy_style (st : style) (cs : B) : B :=
  fold_left
    (fun cs property =>
       setProperty property (getPropertyValue st property) (getPropertyPriority st property) cs)
    (map fst st) cs.

(** [setPropertiesFromRule(rule)] *)
Definition setPropertiesFromRule (node : element) (cs : B) (r : rule) : B :=
  match selectorText r with
  | None => cs
  | Some text =>
      if String.eqb text "" then cs
      else
        let selectors := split text in
        snd (fold_left
               (fun (st : bool * B) sel =>
                  let '(matched, cs) := st in
                  if negb (String.eqb sel "") && negb (String.eqb sel ",")
                     && negb matched && matchesDontThrow node sel
                  then (true, copy_style (rstyle r) cs)
                  else (matched, cs))
               selectors (false, cs))
  end.

(** [readStylesFromStyleSheet(sheet)]: the rules of the sheet in order;
    for a rule with a [media] list that holds ["screen"],
    [forEach.call(rule.cssRules, setPropertiesFromRule)] throws when
    the rule has no [cssRules]. *)
Fixpoint readStylesFromStyleSheet (node : element) (cs : B) (sh : sheet) : Js.completion B :=
  match sh with
  | [] => Js.Normal cs
  | r :: rest =>
      match media r with
      | Some m =>
          if has_screen m then
            match cssRules r with
            | Some rs =>
                readStylesFromStyleSheet node (fold_left (setPropertiesFromRule node) rs cs) rest
            | None => Js.Throw Js.TypeError
            end
          else readStylesFromStyleSheet node cs rest
      | None => readStylesFromStyleSheet node (setPropertiesFromRule node cs r) rest
      end
  end.

(** [forEach.call(node.ownerDocument.styleSheets, readStylesFromStyleSheet)] *)
Fixpoint read_sheets (node : element) (cs : B) (shs : list sheet) : Js.completion B :=
  match shs with
  | [] => Js.Normal cs
  | sh :: rest =>
      match readStylesFromStyleSheet node cs sh with
      | Js.Normal cs' => read_sheets node cs' rest
      | Js.Throw e => Js.Throw e
      end
  end.

(** [getComputedStyle(node)]; the built-in sheet, parsed from the
    module [./default-stylesheet], is a parameter. *)
Definition getComputedStyle (defaultStyleSheet : sheet) (node : element) : Js.completion B :=
  let cs := new_block in
  match readStylesFromStyleSheet node cs defaultStyleSheet with
  | Js.Throw e => Js.Throw e
  | Js.Normal cs =>
      match read_sheets node cs (styleSheets node) with
      | Js.Throw e => Js.Throw e
      | Js.Normal cs => Js.Normal (copy_style (estyle node) cs)
      end
  end.

(** *** The resolver as a sequence of writes *)

(** A write [cs.setProperty(property, value, priority)]. *)
Definition write : Type := (string * (string * string))%type.

Definition apply_writes (ws : list write) (cs : B) : B :=
  fold_left (fun cs w => setProperty (fst w) (fst (snd w)) (snd (snd w)) cs) ws cs.

(** The block takes the write: the value written is what is read for
    the property right after it. *)
Definition takes (w : write) : Prop :=
  forall cs : B, read_value (setProperty (fst w) (fst (snd w)) (snd (snd w)) cs) (fst w) = fst (snd w).

(** The write leaves [property] alone: what is read for it is what was
    read before (a write to another property, or one the block does
    not take). *)
Definition leaves (property : string) (w : write) : Prop :=
  forall cs : B,
    read_value (setProperty (fst w) (fst (snd w)) (snd (snd w)) cs) property =
    read_value cs property.

End Resolver.

(** The writes a declaration block stands for, in item order. *)
Definition writes_of_style (st : style) : list write :=
  map (fun property => (property, (getPropertyValue st property, getPropertyPriority st property)))
      (map fst st).

(** The media list includes ["screen"]. *)
Definition includes_screen (m : list string) : bool :=
  if in_dec string_dec "screen" m then true else false.

(** The selector matches the element: [matches] answers [true] for it. *)
Definition selector_matches (node : element) (sel : string) : bool :=
  match matches node sel with
  | Some true => true
  | _ => false
  end.

(** A rule matches an element when it has a selector text of which
    some branch matches. *)
Definition rule_matches (node : element) (r : rule) : bool :=
  match selectorText r with
  | None => false
  | Some text =>
      negb (String.eqb text "") &&
      existsb (fun sel => negb (String.eqb sel "") && negb (String.eqb sel ",")
                          && selector_matches node sel)
              (split text)
  end.

Definition writes_of_rule (node : element) (r : rule) : list write :=
  if rule_matches node r then writes_of_style (rstyle r) else [].

(** The writes of a sheet: of its matching rules without a media list
    and of the matching rules under a media list that includes
    ["screen"], in order; none at all ([None]: reading the sheet
    throws) if a rule with such a media list has no rules under it. *)
Fixpoint writes_of_sheet (node : element) (sh : sheet) : option (list write) :=
  match sh with
  | [] => Some []
  | r :: rest =>
      let here :=
        match media r with
        | Some m =>
            if includes_screen m then
              match cssRules r with
              | Some rs => Some (flat_map (writes_of_rule node) rs)
              | None => None
              end
            else Some []
        | None => Some (writes_of_rule node r)
        end in
      match here, writes_of_sheet node rest with
      | Some ws, Some ws' => Some (ws ++ ws')
      | _, _ => None
      end
  end.

Fixpoint writes_of_sheets (node : element) (shs : list sheet) : option (list write) :=
  match shs with
  | [] => Some []
  | sh :: rest =>
      match writes_of_sheet node sh, writes_of_sheets node rest with
      | Some ws, Some ws' => Some (ws ++ ws')
      | _, _ => None
      end
  end.

(** Built-in sheet first, then the document's sheets in order, then
    the inline style. *)
Definition writes (defaultStyleSheet : sheet) (node : element) : option (list write) :=
  match writes_of_sheet node defaultStyleSheet, writes_of_sheets node (styleSheets node) with
  | Some wd, Some ws => Some (wd ++ ws ++ writes_of_style (estyle node))
  | _, _ => None
  end.

(** A [div] with the inline style [color: blue] in a document whose one
    sheet holds [div, p { color: red }]; of the selectors asked it
    matches [div] only. *)
Definition red_sheet : sheet := [Rule (Some "div, p") [("color", ("red", ""))] None None].

Definition blue_div : element :=
  mkElement [("color", ("blue", ""))] (fun sel => Some (String.eqb sel "div")) [red_sheet].

Definition plain_div : element :=
  mkElement [] (fun sel => Some (String.eqb sel "div")) [red_sheet].

(** A sheet with rules under media lists, and a rule for another
    element: [@media print { div { color: green } }],
    [@media screen { div { color: red } }], [p { color: black }]. *)
Definition media_sheet : sheet :=
  [Rule None [] (Some ["print"]) (Some [Rule (Some "div") [("color", ("green", ""))] None None]);
   Rule None [] (Some ["screen"]) (Some [Rule (Some "div") [("color", ("red", ""))] None None]);
   Rule (Some "p") [("color", ("black", ""))] None None].

Definition media_div : element :=
  mkElement [] (fun sel => if String.eqb sel "div" then Some true else None) [media_sheet].

(** A [div] in a document whose sheet holds [div { width: 10px }] and
    then [div { width: 10 }]. *)
Definition widths_sheet : sheet :=
  [Rule (Some "div") [("width", ("10px", ""))] None None;
   Rule (Some "div") [("width", ("10", ""))] None None].

Definition widths_div : element :=
  mkElement [] (fun sel => Some (String.eqb sel "div")) [widths_sheet].

(** A sheet that starts with [@import url(print.css) screen]. *)
Definition import_sheet : sheet :=
  Rule None [] (Some ["screen"]) None :: red_sheet.

(** The pieces of a split put together again. *)
Definition join (pieces : list string) : string :=
  fold_right String.append EmptyString pieces.

(** A text with no comma and no quote in it. *)
Fixpoint plain (s : string) : bool :=
  match s with
  | EmptyString => true
  | String c s' =>
      negb (Ascii.eqb c comma) && negb (Ascii.eqb c dquote || Ascii.eqb c squote) && plain s'
  end.

End Css.

(** ** The cookie-aware XMLHttpRequest wrapper *)

Module Xhr.
Import Js.

(** The cookie jar the wrapper reads and writes (the document's
    [_cookieJar]), as an interface: the store behind it belongs to
    another package.  [getCookieStringSync] answers [None] for
    [undefined]. *)
Class CookieJar (J : Type) : Type := {
  getCookieStringSync : J -> string -> option string;
  setCookieSync : string -> string -> J -> J
}.

(** What [xhr.getResponseHeader("set-cookie")] answers. *)
Inductive received : Type :=
| Absent
| Single (s : string)
| Many (l : list string).

(** What the wrapper reads from the underlying request object. *)
Record underlying : Type := mkUnderlying {
  readyState : nat;
  set_cookie : received
}.

Definition HEADERS_RECEIVED : nat := 2.

(** The calls the wrapper makes on the underlying request object. *)
Inductive xhr_call : Type :=
| X_open (method url : string) (async user password : value)     (* xhr._open *)
| X_setDisableHeaderCheck (b : bool)
| X_setRequestHeader (name v : string)
| X_addEventListener (type : string)
| X_removeEventListener (type : string)
| X_getResponseHeader (name : string)
| X_send (data : value).                                       (* xhr._send *)

(** The closure variable [lastUrl] of one request. *)
Record request : Type := mkRequest { lastUrl : string }.

(** [new window.XMLHttpRequest()] *)
Definition new : request := mkRequest "".

Fixpoint strip_prefix (p s : string) : option string :=
  match p, s with
  | EmptyString, _ => Some s
  | String a p', String b s' => if Ascii.eqb a b then strip_prefix p' s' else None
  | String _ _, EmptyString => None
  end.

(** [[a-zA-Z]] *)
Definition is_letter (c : ascii) : bool :=
  let n := nat_of_ascii c in
  (Nat.leb 65 n && Nat.leb n 90) || (Nat.leb 97 n && Nat.leb n 122).

(** [url.replace(/^file:\/\/\/([a-zA-Z]:)/, "file://$1")] *)
Definition fixUrlForBuggyXhr (url : string) : string :=
  match strip_prefix "file:///" url with
  | Some (String c (String d rest)) =>
      if is_letter c && Ascii.eqb d ":"%char
      then String.append "file://" (String c (String d rest))
      else url
  | _ => url
  end.

Section Wrapper.
(** [resolveHref], imported from [../utils], is a parameter. *)
Variable resolveHref : string -> string -> string.
Context {J : Type} `{CookieJar J}.

(** The parts of [window.document] the wrapper reads. *)
Record document : Type := mkDocument {
  URL : string;
  _cookieJar : J
}.

(** [xhr.open(method, url, async, user, password)] *)
Definition open (doc : document) (method url : string) (async user password : value)
    : request * list xhr_call :=
  let lastUrl := fixUrlForBuggyXhr (resolveHref (URL doc) url) in
  (mkRequest lastUrl, [X_open method lastUrl async user password]).

(** [if (cookieStr)] *)
Definition nonempty (cookieStr : option string) : bool :=
  match cookieStr with
  | Some s => negb (String.eqb s "")
  | None => false
  end.

(** Lines 195-202 of [xhr.send]. *)
Definition inject_cookies (doc : document) (req : request) : list xhr_call :=
  let cookieJar := _cookieJar doc in
  let cookieStr := getCookieStringSync cookieJar (lastUrl req) in
  if nonempty cookieStr then
    [X_setDisableHeaderCheck true;
     X_setRequestHeader "cookie" (default "" cookieStr);
     X_setDisableHeaderCheck false]
  else [].

(** [xhr.send(data)] *)
Definition send (doc : document) (req : request) (data : value) : list xhr_call :=
  inject_cookies doc req ++ [X_addEventListener "readystatechange"; X_send data].

(** [setReceivedCookies()], the listener [send] adds, run when the
    underlying object is in state [u]. *)
Definition setReceivedCookies (doc : document) (req : request) (u : underlying)
    : document * list xhr_call :=
  if Nat.eqb (readyState u) HEADERS_RECEIVED then
    let store := fun jar c => setCookieSync c (lastUrl req) jar in
    let jar :=
      match set_cookie u with
      | Absent => _cookieJar doc
      | Single s => if String.eqb s "" then _cookieJar doc else store (_cookieJar doc) s
      | Many l => fold_left store l (_cookieJar doc)
      end in
    (mkDocument (URL doc) jar,
     [X_getResponseHeader "set-cookie"; X_removeEventListener "readystatechange"])
  else (doc, []).

End Wrapper.

Arguments document J : clear implicits.
Arguments mkDocument {J} URL _cookieJar.

(** A jar for the examples: the cookies stored, each with the URL it
    was stored for; the cookie string of a URL joins its cookies. *)
Definition list_jar : Type := list (string * string).

Fixpoint join_cookies (cs : list string) : string :=
  match cs with
  | [] => ""
  | [c] => c
  | c :: rest => String.append c (String.append "; " (join_cookies rest))
  end.

#[export] Instance list_jar_CookieJar : CookieJar list_jar := {
  getCookieStringSync j url :=
    Some (join_cookies (map snd (List.filter (fun e => String.eqb (fst e) url) j)));
  setCookieSync c url j := j ++ [(url, c)]
}.

(** A [resolveHref] for the examples, right on absolute URLs: it
    answers the URL it is given. *)
Definition resolve_absolute (base url : string) : string := url.

(** [s.startsWith(p)] *)
Definition starts_with (p s : string) : bool :=
  match strip_prefix p s with
  | Some _ => true
  | None => false
  end.

(** What [xhr.getAllResponseHeaders()] answers: [null], or what the
    underlying [_getAllResponseHeaders()], then called, answers. *)
Inductive headers_answer : Type :=
| HeadersNull
| HeadersOfUnderlying.

(** [xhr.getAllResponseHeaders()] *)
Definition getAllResponseHeaders (req : request) : headers_answer :=
  if starts_with "file:" (lastUrl req) then HeadersNull else HeadersOfUnderlying.

End Xhr.

(** * Properties *)

(** ** The console router *)

Module ConsoleFacts.
Import Js VirtualConsole.

Lemma listeners_on (r : t) (type name : string) (l : listener) :
  listeners (on r type l) name =
  if decide (type = name) then listeners r name ++ [l] else listeners r name.
Proof.
  unfold listeners, on; simpl.
  destruct (decide (type = name)) as [->|Hne].
  - by rewrite lookup_insert_eq.
  - by rewrite lookup_insert_ne.
Qed.

Lemma listeners_EventEmitter (name : string) : listeners EventEmitter name = [].
Proof. unfold listeners, EventEmitter; simpl. by rewrite lookup_empty. Qed.

Lemma listeners_new (name : string) :
  listeners new name = if decide ("error" = name) then [LNoop] else [].
Proof.
  unfold new. rewrite listeners_on, listeners_EventEmitter.
  by destruct (decide ("error" = name)).
Qed.

Lemma listeners_register_methods (anyConsole : value) (arguments : list value)
    (ks : list string) (r : t) (name : string) :
  listeners (register_methods anyConsole arguments ks r) name =
  listeners r name ++
  map (fun method => LForward anyConsole method arguments) (forwarded anyConsole name ks).
Proof.
  unfold register_methods, forwarded.
  revert r; induction ks as [|k ks IH]; intros r; simpl.
  - by rewrite app_nil_r.
  - rewrite IH. destruct (get anyConsole k) as [f|x] eqn:Hget.
    + destruct (is_function f) eqn:Hf.
      * rewrite listeners_on. destruct (decide (k = name)) as [->|Hne].
        -- rewrite String.eqb_refl; simpl. by rewrite <- app_assoc.
        -- apply String.eqb_neq in Hne. by rewrite Hne.
      * by rewrite andb_false_r.
    + by rewrite andb_false_r.
Qed.

Lemma call_listeners_app (l1 l2 : list listener) (emitted : list value) :
  call_listeners (l1 ++ l2) emitted =
  bind (call_listeners l1 emitted) (fun _ => call_listeners l2 emitted).
Proof.
  induction l1 as [|l l1 IH]; simpl.
  - unfold bind, ret. destruct (call_listeners l2 emitted) as [t c]. by destruct c.
  - rewrite IH. unfold bind.
    destruct (call_listener l emitted) as [t [[]|x]]; [|done].
    destruct (call_listeners l1 emitted) as [t1 [[]|x1]]; [|done].
    destruct (call_listeners l2 emitted) as [t2 c2]. by rewrite app_assoc.
Qed.

(** The forwarding closure never looks at what was emitted. *)
Lemma call_forward_ignores_emitted (anyConsole : value) (method : string)
    (arguments A B : list value) :
  call_listener (LForward anyConsole method arguments) A =
  call_listener (LForward anyConsole method arguments) B.
Proof. reflexivity. Qed.

Lemma call_forwarded_normal (anyConsole : value) (arguments : list value)
    (name : string) (ks : list string) (emitted : list value) :
  exists calls,
    call_listeners
      (map (fun method => LForward anyConsole method arguments) (forwarded anyConsole name ks))
      emitted = (calls, Normal tt).
Proof.
  unfold forwarded. induction ks as [|k ks [calls IH]]; simpl.
  - by exists [].
  - destruct (String.eqb k name); simpl; [|by exists calls].
    destruct (get anyConsole k) as [f|x] eqn:Hget; [|by exists calls].
    destruct (is_function f) eqn:Hf; [|by exists calls].
    simpl. rewrite Hget. unfold apply. rewrite Hf, IH. simpl. by eexists.
Qed.

(** C7: emitting any event with any arguments on a freshly constructed
    router, to which no sink is attached, calls nothing and does not
    raise.  For ["error"] this is the work of the listener the
    constructor installs: it is the only listener of that event, and the
    bare emitter, without it, raises on ["error"]. *)
Theorem emit_without_sinks_never_raises :
  (forall (type : string) (args : list value),
      exists b, emit new type args = ([], Normal b)) /\
  listeners new "error" = [LNoop] /\
  (forall args, emit new "error" args = ([], Normal true)) /\
  (forall args, emit EventEmitter "error" args = ([], Throw (UnhandledError args))).
Proof.
  split; [|split; [|split]].
  - intros type args. unfold emit. rewrite listeners_new.
    destruct (decide ("error" = type)) as [<-|Hne].
    + by exists true.
    + exists false. assert (String.eqb type "error" = false) as ->; [|done].
      apply String.eqb_neq. congruence.
  - by rewrite listeners_new.
  - intros args. unfold emit. by rewrite listeners_new.
  - intros args. unfold emit. by rewrite listeners_EventEmitter.
Qed.

Lemma listeners_sendTo (r : t) (arguments : list value) (ks : list string)
    (omit : value) (name : string) :
  keys (arg 0 arguments) = Normal ks ->
  get (options_of arguments) "omitJsdomErrors" = Normal omit ->
  snd (sendTo r arguments) = Normal tt /\
  listeners (fst (sendTo r arguments)) name =
    listeners r name ++
    map (fun method => LForward (arg 0 arguments) method arguments)
        (forwarded (arg 0 arguments) name ks) ++
    (if truthy omit then []
     else if decide ("jsdomError" = name) then [LJsdomError (arg 0 arguments)] else []).
Proof.
  intros Hks Hopt. unfold sendTo.
  rewrite Hks, Hopt. destruct (truthy omit); simpl.
  - split; [done|]. by rewrite listeners_register_methods, app_nil_r.
  - split; [done|]. rewrite listeners_on, listeners_register_methods.
    destruct (decide ("jsdomError" = name)).
    + by rewrite <- app_assoc.
    + by rewrite app_nil_r.
Qed.

(** C1 (the code departs from it): a sink with one method [log] is
    attached with [sendTo(sink)]; whatever argument list [A] is then
    emitted for ["log"], the method is called once, with the argument
    list of the [sendTo] call (the sink itself), not with [A].  With a
    second sink attached by [sendTo(sink2, options)], each sink's [log]
    is called once, in attachment order, again with the arguments of its
    own [sendTo] call. *)
Theorem sendTo_forwards_its_own_arguments :
  forall (id id2 : nat) (f f2 : string) (options : value) (A : list value),
    let sink := VObj id [("log", VFun f)] in
    let sink2 := VObj id2 [("log", VFun f2)] in
    emit (fst (sendTo new [sink])) "log" A = ([Call (VFun f) sink [sink]], Normal true) /\
    emit (fst (sendTo (fst (sendTo new [sink])) [sink2; options])) "log" A =
      ([Call (VFun f) sink [sink]; Call (VFun f2) sink2 [sink2; options]], Normal true).
Proof.
  intros id id2 f f2 options A sink sink2.
  assert (listeners (fst (sendTo new [sink])) "log" = [LForward sink "log" [sink]]) as H1.
  { destruct (listeners_sendTo new [sink] ["log"] VUndefined "log") as [_ ->]; [done..|].
    by rewrite listeners_new. }
  split.
  - unfold emit. by rewrite H1.
  - unfold emit.
    assert (listeners (fst (sendTo (fst (sendTo new [sink])) [sink2; options])) "log" =
            [LForward sink "log" [sink]; LForward sink2 "log" [sink2; options]]) as ->.
    { unfold sendTo at 1. cbn [arg nth]. change (keys sink2) with (Normal ["log"]).
      cbv iota beta.
      destruct (get (options_of [sink2; options]) "omitJsdomErrors") as [omit|x].
      - destruct (truthy omit); cbn [fst].
        + by rewrite listeners_register_methods, H1.
        + by rewrite listeners_on, listeners_register_methods, H1.
      - cbn [fst]. by rewrite listeners_register_methods, H1. }
    reflexivity.
Qed.

Lemma omitJsdomErrors_of_options (arguments : list value) :
  arg 1 arguments <> VNull ->
  exists omit,
    get (options_of arguments) "omitJsdomErrors" = Normal omit /\
    truthy omit = omitJsdomErrors_set arguments.
Proof.
  intros Hnull. unfold options_of, omitJsdomErrors_set.
  destruct (arg 1 arguments) as [| |b|n|s|fn|oid oprops]; simpl.
  - by exists VUndefined.
  - congruence.
  - by exists VUndefined.
  - by exists VUndefined.
  - by exists VUndefined.
  - by exists VUndefined.
  - by eexists.
Qed.

(** C2 as stated does not hold for every sink: a sink with [log] only
    is attached, with no options; emitting ["jsdomError"] with a
    failure calls nothing and throws a [TypeError]. *)
Lemma jsdomError_throws_without_error_method :
  emit (fst (sendTo new [VObj 1 [("log", VFun "log")]])) "jsdomError"
       [VObj 2 [("stack", VStr "Error: boom"); ("detail", VNum 7)]] =
    ([], Throw TypeError).
Proof. reflexivity. Qed.

(** C2, amended: a sink whose [error] is a function is attached with
    [sendTo]; the options, if given, are not [null].  If
    [options.omitJsdomErrors] is not set, the call adds, as the last
    listener of ["jsdomError"], the closure that forwards to [error];
    when the listeners that were there before complete on a failure
    [e], emitting ["jsdomError"] with [e] completes and ends with one
    call of the sink's [error] on the sink, with [e.stack] (the
    failure's description) and [e.detail].  If
    [options.omitJsdomErrors] is set, the listeners added for
    ["jsdomError"] are at most the method forwarders of lines 18-24,
    none of them the closure for [error]. *)
Theorem jsdomError_forwarded_to_error :
  forall (r : t) (arguments : list value) (sid : nat) (props : list (string * value))
         (f : string),
    let anyConsole := VObj sid props in
    arg 0 arguments = anyConsole ->
    assoc "error" props = VFun f ->
    arg 1 arguments <> VNull ->
    let r' := fst (sendTo r arguments) in
    exists fw,
      Forall (fun l => exists m, l = LForward anyConsole m arguments) fw /\
      (omitJsdomErrors_set arguments = false ->
         listeners r' "jsdomError" =
           listeners r "jsdomError" ++ fw ++ [LJsdomError anyConsole] /\
         forall (eid : nat) (eprops : list (string * value)) before,
           call_listeners (listeners r "jsdomError") [VObj eid eprops] = (before, Normal tt) ->
           exists pre,
             emit r' "jsdomError" [VObj eid eprops] =
               (pre ++ [Call (VFun f) anyConsole [assoc "stack" eprops; assoc "detail" eprops]],
                Normal true)) /\
      (omitJsdomErrors_set arguments = true ->
         listeners r' "jsdomError" = listeners r "jsdomError" ++ fw).
Proof.
  intros r arguments sid props f anyConsole Harg Herr Hnull r'.
  destruct (omitJsdomErrors_of_options arguments Hnull) as (omit & Hopt & Hset).
  destruct (listeners_sendTo r arguments (map fst props) omit "jsdomError") as [_ Hl].
  { by rewrite Harg. }
  { done. }
  fold r' in Hl. rewrite Harg, Hset in Hl. fold anyConsole in Hl.
  set (fw := map (fun method => LForward anyConsole method arguments)
                 (forwarded anyConsole "jsdomError" (map fst props))) in *.
  exists fw. split; [|split].
  - subst fw. apply Forall_forall. intros l Hin.
    apply list_elem_of_In, in_map_iff in Hin as (m & <- & _). by exists m.
  - intros Hom. rewrite Hom in Hl. simpl in Hl. split; [done|].
    intros eid eprops before Hbefore.
    destruct (call_forwarded_normal anyConsole arguments "jsdomError" (map fst props)
                [VObj eid eprops]) as [calls Hcalls].
    fold fw in Hcalls.
    exists (before ++ calls).
    unfold emit. rewrite Hl.
    destruct (listeners r "jsdomError" ++ fw ++ [LJsdomError anyConsole]) eqn:Hnil.
    { destruct (listeners r "jsdomError"); [destruct fw|]; discriminate. }
    rewrite <- Hnil. rewrite !call_listeners_app, Hbefore, Hcalls.
    simpl. rewrite Herr. simpl. by rewrite app_nil_r, app_assoc.
  - intros Hom. rewrite Hom in Hl. by rewrite app_nil_r in Hl.
Qed.

(** The router of a new window and a console with [log] and [error]:
    attached with no options, a failure emitted reaches [error] with
    its stack and its detail; attached with [{ omitJsdomErrors: true }],
    no listener is added for ["jsdomError"]. *)
Lemma jsdomError_forwarded_to_error_witness :
  let sink := VObj 1 [("log", VFun "log"); ("error", VFun "error")] in
  let options := VObj 3 [("omitJsdomErrors", VBool true)] in
  (exists pre,
     emit (fst (sendTo new [sink])) "jsdomError"
          [VObj 2 [("stack", VStr "Error: boom"); ("detail", VNum 7)]] =
       (pre ++ [Call (VFun "error") sink [VStr "Error: boom"; VNum 7]], Normal true)) /\
  listeners (fst (sendTo new [sink; options])) "jsdomError" = [].
Proof.
  intros sink options. split.
  - destruct (jsdomError_forwarded_to_error new [sink] 1
                [("log", VFun "log"); ("error", VFun "error")] "error"
                eq_refl eq_refl ltac:(discriminate)) as (fw & _ & Hno & _).
    destruct (Hno eq_refl) as [_ Hemit].
    apply (Hemit 2 [("stack", VStr "Error: boom"); ("detail", VNum 7)] []).
    reflexivity.
  - destruct (jsdomError_forwarded_to_error new [sink; options] 1
                [("log", VFun "log"); ("error", VFun "error")] "error"
                eq_refl eq_refl ltac:(discriminate)) as (fw & Hfw & _ & Hset).
    rewrite (Hset eq_refl). rewrite listeners_new. simpl.
    destruct fw as [|l fw]; [done|].
    apply Forall_cons in Hfw as [[m Hm] _].
    pose proof (Hset eq_refl) as Hl. rewrite listeners_new in Hl. simpl in Hl.
    vm_compute in Hl. discriminate Hl.
Defined.

End ConsoleFacts.

(** ** Timers *)

Module TimerFacts.
Import Window.

Lemma stopTimer_loop_sublist (this : nat) (id : handle) (ts : list (handle * stopFn)) :
  fst (stopTimer_loop this id ts) `sublist_of` ts /\
  registered (snd (stopTimer_loop this id ts)) = [].
Proof.
  induction ts as [|t ts [IH1 IH2]]; simpl.
  - split; [constructor|done].
  - destruct (Nat.eqb (fst t) id).
    + simpl. split; [by apply sublist_cons|done].
    + destruct (stopTimer_loop this id ts) as [rest ev]; simpl in *.
      split; [by apply sublist_skip|done].
Qed.

Lemma registered_app (t1 t2 : list event) :
  registered (t1 ++ t2) = registered t1 ++ registered t2.
Proof. unfold registered. by rewrite flat_map_app. Qed.

Lemma timers_set_timers ts w : __timers (set_timers ts w) = ts.
Proof. by destruct w. Qed.

Lemma timer_step_sublist (c : timer_call) (w : window) (h : host) :
  let '(w', _, ev) := timer_step c (w, h) in
  __timers w' `sublist_of` __timers w ++ registered ev.
Proof.
  destruct c as [fn ms|fn ms|id|id]; simpl.
  - by rewrite timers_set_timers.
  - by rewrite timers_set_timers.
  - destruct id as [id|]; simpl.
    + pose proof (stopTimer_loop_sublist (wid w) id (__timers w)) as [H1 H2].
      destruct (stopTimer_loop (wid w) id (__timers w)) as [ts ev]; simpl in *.
      by rewrite timers_set_timers, H2, app_nil_r.
    + by rewrite app_nil_r.
  - destruct id as [id|]; simpl.
    + pose proof (stopTimer_loop_sublist (wid w) id (__timers w)) as [H1 H2].
      destruct (stopTimer_loop (wid w) id (__timers w)) as [ts ev]; simpl in *.
      by rewrite timers_set_timers, H2, app_nil_r.
    + by rewrite app_nil_r.
Qed.

Lemma timer_run_sublist (cs : list timer_call) (w : window) (h : host) :
  let '(w', _, tr) := timer_run cs (w, h) in
  __timers w' `sublist_of` __timers w ++ registered tr.
Proof.
  revert w h. induction cs as [|c cs IH]; intros w h; cbn [timer_run].
  - by rewrite app_nil_r.
  - pose proof (timer_step_sublist c w h) as Hstep.
    destruct (timer_step c (w, h)) as [[w1 h1] ev1].
    specialize (IH w1 h1).
    destruct (timer_run cs (w1, h1)) as [[w2 h2] ev2]. simpl.
    rewrite registered_app, app_assoc.
    etrans; [exact IH|]. by apply sublist_app.
Qed.

Lemma stopTimer_loop_stops (this : nat) (id : handle) (ts : list (handle * stopFn))
    (t : handle * stopFn) :
  t ∈ ts ->
  t ∈ fst (stopTimer_loop this id ts) \/
  HostStop (snd t) this (fst t) ∈ snd (stopTimer_loop this id ts).
Proof.
  induction ts as [|t0 ts IH]; simpl; intros Hin.
  - by apply elem_of_nil in Hin.
  - destruct (Nat.eqb (fst t0) id) eqn:Heq.
    + apply Nat.eqb_eq in Heq. simpl.
      apply elem_of_cons in Hin as [->|Hin]; [|by left].
      right. rewrite Heq. by apply list_elem_of_singleton.
    + destruct (stopTimer_loop this id ts) as [rest ev]; simpl in *.
      apply elem_of_cons in Hin as [->|Hin].
      * left. by apply elem_of_cons; left.
      * destruct (IH Hin) as [?|?]; [left|by right]. by apply elem_of_cons; right.
Qed.

Lemma timer_step_stops (c : timer_call) (w : window) (h : host) (t : handle * stopFn) :
  let '(w', _, ev) := timer_step c (w, h) in
  wid w' = wid w /\
  (t ∈ __timers w ++ registered ev ->
   t ∈ __timers w' \/ HostStop (snd t) (wid w) (fst t) ∈ ev).
Proof.
  assert (forall ts, wid (set_timers ts w) = wid w) as Hwid by (by destruct w).
  destruct c as [fn ms|fn ms|id|id]; simpl.
  - rewrite timers_set_timers, Hwid. split; [done|]. by left.
  - rewrite timers_set_timers, Hwid. split; [done|]. by left.
  - destruct id as [id|]; simpl.
    + pose proof (stopTimer_loop_stops (wid w) id (__timers w) t) as Hs.
      pose proof (stopTimer_loop_sublist (wid w) id (__timers w)) as [_ Hr].
      destruct (stopTimer_loop (wid w) id (__timers w)) as [ts ev]; simpl in *.
      rewrite timers_set_timers, Hwid, Hr, app_nil_r. done.
    + rewrite app_nil_r. split; [done|]. by left.
  - destruct id as [id|]; simpl.
    + pose proof (stopTimer_loop_stops (wid w) id (__timers w) t) as Hs.
      pose proof (stopTimer_loop_sublist (wid w) id (__timers w)) as [_ Hr].
      destruct (stopTimer_loop (wid w) id (__timers w)) as [ts ev]; simpl in *.
      rewrite timers_set_timers, Hwid, Hr, app_nil_r. done.
    + rewrite app_nil_r. split; [done|]. by left.
Qed.

Lemma timer_run_stops (cs : list timer_call) (w : window) (h : host) (t : handle * stopFn) :
  let '(w', _, tr) := timer_run cs (w, h) in
  wid w' = wid w /\
  (t ∈ __timers w ++ registered tr ->
   t ∈ __timers w' \/ HostStop (snd t) (wid w) (fst t) ∈ tr).
Proof.
  revert w h. induction cs as [|c cs IH]; intros w h; cbn [timer_run].
  - rewrite app_nil_r. split; [done|]. by left.
  - pose proof (timer_step_stops c w h t) as Hstep.
    destruct (timer_step c (w, h)) as [[w1 h1] ev1].
    specialize (IH w1 h1).
    destruct (timer_run cs (w1, h1)) as [[w2 h2] ev2]. simpl.
    destruct Hstep as [Hw1 Hstep], IH as [Hw2 IH].
    split; [congruence|]. rewrite registered_app, app_assoc, Hw1 in *.
    intros [Hin|Hin]%elem_of_app.
    + destruct (Hstep Hin) as [H1|H1].
      * destruct IH as [?|?]; [apply elem_of_app; by left|by left|].
        right. apply elem_of_app. by right.
      * right. apply elem_of_app. by left.
    + destruct IH as [?|?]; [apply elem_of_app; by right|by left|].
      right. apply elem_of_app. by right.
Qed.

(** C4: a window starts with an empty registry; after any sequence of
    [setTimeout], [setInterval], [clearTimeout] and [clearInterval]
    calls the registry holds entries in the order they were registered
    (it is a subsequence of what the scheduling calls registered), and
    it holds every registered entry that has not been stopped yet;
    [stopAllTimers] calls the stored stop function of each entry on its
    handle, in that order, and leaves the registry empty; called again,
    it calls nothing and changes nothing. *)
Theorem stopAllTimers_stops_every_entry_in_order :
  forall (cs : list timer_call) (i : nat) (d : option document) (kids : list window) (h : host),
    let w := fst (fst (timer_run cs (Win i d [] kids, h))) in
    let tr := snd (timer_run cs (Win i d [] kids, h)) in
    let w' := fst (stopAllTimers w) in
    __timers w `sublist_of` registered tr /\
    (forall t, t ∈ registered tr -> t ∈ __timers w \/ HostStop (snd t) i (fst t) ∈ tr) /\
    snd (stopAllTimers w) = map (fun t => HostStop (snd t) i (fst t)) (__timers w) /\
    __timers w' = [] /\
    stopAllTimers w' = (w', []).
Proof.
  intros cs i d kids h.
  pose proof (timer_run_sublist cs (Win i d [] kids) h) as Hsub.
  assert (forall t, let '(w', _, tr) := timer_run cs (Win i d [] kids, h) in
            wid w' = i /\
            (t ∈ registered tr -> t ∈ __timers w' \/ HostStop (snd t) i (fst t) ∈ tr))
    as Hstops.
  { intros t. apply (timer_run_stops cs (Win i d [] kids) h t). }
  destruct (timer_run cs (Win i d [] kids, h)) as [[w h'] tr]; simpl in *.
  split; [done|]. split; [intros t; by apply Hstops|].
  destruct (Hstops (0, clearTimeout)) as [Hwid _].
  destruct w as [j dj ts kj]; simpl in *. by subst j.
Qed.

End TimerFacts.

(** ** Closing a window *)

Module CloseFacts.
Import Window.

(** *** Lists without repetitions *)

Lemma filter_all {A} (P : A -> Prop) `{forall x, Decision (P x)} (l : list A) :
  Forall P l -> filter P l = l.
Proof.
  induction 1 as [|x l Hx Hl IH]; [done|].
  rewrite filter_cons_True by done. by rewrite IH.
Qed.

Lemma filter_none {A} (P : A -> Prop) `{forall x, Decision (P x)} (l : list A) :
  Forall (fun x => ~ P x) l -> filter P l = [].
Proof.
  induction 1 as [|x l Hx Hl IH]; [done|].
  by rewrite filter_cons_False.
Qed.

Lemma elem_of_firsts (x : nat) (l : list nat) : x ∈ firsts l <-> x ∈ l.
Proof.
  induction l as [|y l IH]; simpl; [done|].
  rewrite !elem_of_cons, list_elem_of_filter, IH.
  destruct (decide (x = y)); tauto.
Qed.

Lemma firsts_app (l1 l2 : list nat) :
  firsts (l1 ++ l2) = firsts l1 ++ filter (fun y => y ∉ l1) (firsts l2).
Proof.
  induction l1 as [|x l1 IH]; simpl.
  - symmetry. apply filter_all, Forall_forall. intros y _. apply not_elem_of_nil.
  - f_equal. rewrite IH, filter_app. f_equal.
    rewrite list_filter_filter. apply list_filter_iff.
    intros y. rewrite not_elem_of_cons. tauto.
Qed.

(** Appending to a trace whose first occurrences are [K] a trace whose
    first occurrences are among [K] or new. *)
Lemma firsts_app_known (a b K L : list nat) :
  firsts a = K -> firsts b = L ->
  firsts (a ++ b) = K ++ filter (fun y => y ∉ K) L.
Proof.
  intros Ha Hb. rewrite firsts_app, Ha, Hb. f_equal.
  apply list_filter_iff. intros y. by rewrite <- Ha, elem_of_firsts.
Qed.

(** *** Frame trees *)

Lemma window_ind' (P : window -> Prop) :
  (forall i d ts kids, Forall P kids -> P (Win i d ts kids)) ->
  forall w, P w.
Proof.
  intros Hstep. fix IH 1. intros [i d ts kids]. apply Hstep.
  induction kids as [|k kids IHk]; constructor; [apply IH|exact IHk].
Qed.

Lemma height_kids_le (n : nat) (kids : list window) :
  fold_right (fun k m => Nat.max (height k) m) 0 kids <= n <->
  Forall (fun k => height k <= n) kids.
Proof.
  induction kids as [|k kids IH]; simpl.
  - split; [constructor|lia].
  - rewrite Forall_cons, <- IH. lia.
Qed.

Lemma height_Win_le (n i : nat) d ts (kids : list window) :
  height (Win i d ts kids) <= S n <-> Forall (fun k => height k <= n) kids.
Proof. simpl. rewrite <- height_kids_le. lia. Qed.

Lemma height_pos (w : window) : 1 <= height w.
Proof. destruct w; simpl; lia. Qed.

Lemma ids_closed (w : window) : ids (closed w) = ids w.
Proof.
  induction w as [i d ts kids IH] using window_ind'; simpl. f_equal.
  induction IH as [|k kids Hk _ IHk]; simpl; [done|]. by rewrite Hk, IHk.
Qed.

Lemma closed_closed (w : window) : closed (closed w) = closed w.
Proof.
  induction w as [i d ts kids IH] using window_ind'; simpl. f_equal.
  induction IH as [|k kids Hk _ IHk]; simpl; [done|]. by rewrite Hk, IHk.
Qed.

Lemma height_closed (w : window) : height (closed w) = height w.
Proof.
  induction w as [i d ts kids IH] using window_ind'; simpl. f_equal.
  induction IH as [|k kids Hk _ IHk]; simpl; [done|]. by rewrite Hk, IHk.
Qed.

(** *** Traces *)

Lemma closes_app (t1 t2 : list event) : closes (t1 ++ t2) = closes t1 ++ closes t2.
Proof. unfold closes. by rewrite flat_map_app. Qed.

Lemma closes_stops (i : nat) (ts : list (handle * stopFn)) :
  closes (map (fun t => HostStop (snd t) i (fst t)) ts) = [].
Proof. induction ts; simpl; done. Qed.

Lemma closes_teardown (w : window) : closes (teardown_events w) = [wid w].
Proof.
  unfold teardown_events. rewrite !closes_app, closes_stops.
  destruct w as [i [d|] ts kids]; simpl; [|done].
  by destruct (body d), (has_close d).
Qed.

Lemma elem_of_flat_map {A B} (f : A -> list B) (l : list A) (x : B) :
  x ∈ flat_map f l <-> exists k, k ∈ l /\ x ∈ f k.
Proof.
  rewrite list_elem_of_In, in_flat_map. split.
  - intros (k & Hk & Hx). exists k. by rewrite !list_elem_of_In.
  - intros (k & Hk & Hx). exists k. by rewrite <- !list_elem_of_In.
Qed.

Lemma NoDup_flat_map_elem {A B} (f : A -> list B) (l : list A) (k : A) :
  NoDup (flat_map f l) -> k ∈ l -> NoDup (f k).
Proof.
  induction l as [|a l IH]; simpl; intros Hnd Hk.
  - by apply elem_of_nil in Hk.
  - apply NoDup_app in Hnd as (Ha & _ & Hl).
    apply elem_of_cons in Hk as [->|Hk]; [done|by apply IH].
Qed.

Lemma ids_map_closed (kids : list window) :
  flat_map ids (map closed kids) = flat_map ids kids.
Proof. induction kids as [|k kids IH]; simpl; [done|]. by rewrite ids_closed, IH. Qed.

Lemma height_map_closed (kids : list window) :
  fold_right (fun k m => Nat.max (height k) m) 0 (map closed kids) =
  fold_right (fun k m => Nat.max (height k) m) 0 kids.
Proof. induction kids as [|k kids IH]; simpl; [done|]. by rewrite height_closed, IH. Qed.

Lemma map_closed_closed (kids : list window) :
  map closed (map closed kids) = map closed kids.
Proof. induction kids as [|k kids IH]; simpl; [done|]. by rewrite closed_closed, IH. Qed.

(** *** The recursion *)

Lemma forM_closes (f : window -> M window) (kids : list window) :
  Forall (fun k => exists tr, f k = Some (closed k, tr) /\ firsts (closes tr) = ids k) kids ->
  NoDup (flat_map ids kids) ->
  exists tr, forM f kids = Some (map closed kids, tr) /\
             firsts (closes tr) = flat_map ids kids.
Proof.
  induction 1 as [|k kids (trk & Hk & Hfk) _ IH]; simpl; intros Hnd.
  - by exists [].
  - apply NoDup_app in Hnd as (_ & Hdisj & Hrest).
    destruct (IH Hrest) as (trs & Hs & Hfs).
    exists (trk ++ trs). rewrite Hk, Hs. simpl. rewrite app_nil_r. split; [done|].
    rewrite closes_app, (firsts_app_known _ _ _ _ Hfk Hfs). f_equal.
    apply filter_all, Forall_forall. intros y Hy Hyk. by apply (Hdisj y).
Qed.

Lemma firsts_closes_whole (pre : list event) (w : window) :
  firsts (closes pre) = flat_map ids (frames w) ->
  NoDup (ids w) ->
  firsts (closes (pre ++ teardown_events w)) = ids w.
Proof.
  intros Hpre Hnd. rewrite closes_app, closes_teardown.
  rewrite (firsts_app_known _ _ _ [wid w] Hpre) by done.
  destruct w as [i d ts kids]; simpl in *. f_equal.
  apply NoDup_app in Hnd as (_ & Hdisj & _).
  apply filter_all, Forall_forall. intros y ->%list_elem_of_singleton Hy.
  apply (Hdisj _ Hy). by apply list_elem_of_singleton.
Qed.

Lemma cleaner_closes (close_child : window -> M window) (n cur : nat) :
  (forall v, height v <= n -> NoDup (ids v) ->
     exists tr, close_child v = Some (closed v, tr) /\ firsts (closes tr) = ids v) ->
  forall w, height w <= n -> NoDup (ids w) -> cur ∉ ids w ->
    exists tr, windowCleaner close_child cur w = Some (closed w, tr) /\
               firsts (closes tr) = ids w.
Proof.
  intros Hchild w.
  induction w as [i d ts kids IH] using window_ind'; intros Hh Hnd Hcur.
  simpl in Hnd, Hcur.
  apply NoDup_app in Hnd as (Hkids & Hdisj & _).
  apply not_elem_of_app in Hcur as [Hcur_kids Hcur_i].
  assert (Forall (fun k => height k <= n) kids) as Hhk.
  { destruct n as [|n]; [simpl in Hh; lia|].
    apply height_Win_le in Hh. eapply Forall_impl; [exact Hh|]. simpl. lia. }
  destruct (forM_closes (windowCleaner close_child cur) kids) as (trk & Hfor & Hfk).
  { apply Forall_forall. intros k Hk.
    rewrite Forall_forall in IH. apply (IH k Hk).
    - rewrite Forall_forall in Hhk. by apply Hhk.
    - by eapply NoDup_flat_map_elem.
    - intros Hin. apply Hcur_kids, elem_of_flat_map. by exists k. }
  { done. }
  destruct (Hchild (Win i d ts (map closed kids))) as (trc & Hc & Hfc).
  { simpl. rewrite height_map_closed. exact Hh. }
  { simpl. rewrite ids_map_closed. apply NoDup_app. split; [done|]. split; [done|].
    apply NoDup_singleton. }
  simpl in Hc, Hfc. rewrite map_closed_closed in Hc. rewrite ids_map_closed in Hfc.
  exists (trk ++ trc). cbn [windowCleaner]. rewrite Hfor. simpl.
  assert (Nat.eqb i cur = false) as ->.
  { apply Nat.eqb_neq. intros ->. apply Hcur_i. by apply list_elem_of_singleton. }
  rewrite Hc. split; [done|].
  rewrite closes_app, (firsts_app_known _ _ _ _ Hfk Hfc), filter_app.
  rewrite (filter_none _ (flat_map ids kids)), (filter_all _ [i]); [done| |].
  - apply Forall_forall. intros y ->%list_elem_of_singleton Hy.
    apply (Hdisj _ Hy). by apply list_elem_of_singleton.
  - apply Forall_forall. tauto.
Qed.

Lemma close_closes (n : nat) :
  forall w, height w <= n -> NoDup (ids w) ->
    exists pre, close n w = Some (closed w, pre ++ teardown_events w) /\
                firsts (closes pre) = flat_map ids (frames w).
Proof.
  induction n as [|n IHn]; intros w Hh Hnd.
  - pose proof (height_pos w). lia.
  - destruct w as [i d ts kids].
    pose proof Hnd as Hnd'. simpl in Hnd'.
    apply NoDup_app in Hnd' as (Hkids & Hdisj & _).
    apply height_Win_le in Hh.
    destruct (forM_closes (windowCleaner (close n) i) kids) as (trk & Hfor & Hfk).
    { apply Forall_forall. intros k Hk.
      apply (cleaner_closes (close n) n i).
      - intros v Hv Hndv. destruct (IHn v Hv Hndv) as (pre & Hc & Hf).
        exists (pre ++ teardown_events v). split; [done|].
        by apply firsts_closes_whole.
      - rewrite Forall_forall in Hh. by apply Hh.
      - by eapply NoDup_flat_map_elem.
      - intros Hin. apply (Hdisj i); [|by apply list_elem_of_singleton].
        apply elem_of_flat_map. by exists k. }
    { done. }
    exists trk. split; [|done].
    cbn [close windowCleaner wid]. rewrite Hfor. simpl mbind.
    rewrite Nat.eqb_refl. unfold teardown_events. simpl.
    destruct d as [d|]; simpl; by rewrite !app_nil_r.
Qed.

Lemma elem_of_closes (i : nat) (tr : list event) : i ∈ closes tr <-> CloseReturn i ∈ tr.
Proof.
  unfold closes. rewrite elem_of_flat_map. split.
  - intros (e & He & Hi). destruct e; try by apply elem_of_nil in Hi.
    by apply list_elem_of_singleton in Hi as ->.
  - intros Hin. exists (CloseReturn i). split; [done|]. by apply list_elem_of_singleton.
Qed.

(** Termination of [close] on any frame tree, repeated identities or
    not: a bound of the tree's height is enough. *)
Lemma forM_total (f : window -> M window) (kids : list window) :
  Forall (fun k => exists k' tr, f k = Some (k', tr) /\ height k' <= height k) kids ->
  exists kids' tr,
    forM f kids = Some (kids', tr) /\
    fold_right (fun k m => Nat.max (height k) m) 0 kids' <=
    fold_right (fun k m => Nat.max (height k) m) 0 kids.
Proof.
  induction 1 as [|k kids (k' & trk & Hk & Hhk) _ (kids' & trs & Hs & Hhs)]; simpl.
  - by exists [], [].
  - exists (k' :: kids'), (trk ++ trs ++ []). rewrite Hk, Hs. simpl.
    split; [done|]. lia.
Qed.

Lemma cleaner_total (close_child : window -> M window) (n cur : nat) :
  (forall v, height v <= n ->
     exists v' tr, close_child v = Some (v', tr) /\ height v' <= height v) ->
  forall w, height w <= n ->
    exists w' tr, windowCleaner close_child cur w = Some (w', tr) /\ height w' <= height w.
Proof.
  intros Hchild w.
  induction w as [i d ts kids IH] using window_ind'; intros Hh.
  destruct (forM_total (windowCleaner close_child cur) kids) as (kids' & trk & Hfor & Hhk).
  { apply Forall_forall. intros k Hk.
    rewrite Forall_forall in IH. apply (IH k Hk).
    assert (Forall (fun k => height k <= height (Win i d ts kids)) kids) as Hall.
    { eapply Forall_impl; [apply height_kids_le; reflexivity|]. simpl. lia. }
    rewrite Forall_forall in Hall. specialize (Hall k Hk). lia. }
  cbn [windowCleaner]. rewrite Hfor. simpl mbind.
  destruct (Nat.eqb i cur).
  - eexists _, _. split; [reflexivity|]. simpl. lia.
  - destruct (Hchild (Win i d ts kids')) as (w2 & tr2 & Hc & Hh2).
    { simpl in *. lia. }
    rewrite Hc. eexists _, _. split; [reflexivity|]. simpl in *. lia.
Qed.

Lemma close_total (n : nat) :
  forall w, height w <= n ->
    exists w' tr, close n w = Some (w', tr) /\ height w' <= height w /\
                  _document w' = None /\ __timers w' = [].
Proof.
  induction n as [|n IHn]; intros w Hh.
  - pose proof (height_pos w). lia.
  - destruct w as [i d ts kids]. pose proof Hh as Hkids. apply height_Win_le in Hkids.
    destruct (forM_total (windowCleaner (close n) i) kids) as (kids' & trk & Hfor & Hhk).
    { apply Forall_forall. intros k Hk. rewrite Forall_forall in Hkids.
      apply (cleaner_total (close n) n i); [|by apply Hkids].
      intros v Hv. destruct (IHn v Hv) as (v' & tr & Hc & Hle & _). by exists v', tr. }
    cbn [close windowCleaner wid]. rewrite Hfor. simpl mbind. rewrite Nat.eqb_refl.
    destruct d as [d|]; simpl; (eexists _, _; split; [reflexivity|]; simpl; split; [lia|done]).
Qed.

(** C3: for a frame tree of distinct windows, [close()] of the root
    returns (a bound of the tree's height is enough); before the root's
    own teardown starts, [close()] has returned for every descendant,
    and their first returns come depth first, each window after its
    children; the root's own [close()] returns last and only once.  The
    teardown calls the stop function of every entry of the root's timer
    registry, in order; afterwards the root, like every window of the
    tree, has no document and an empty registry. *)
Theorem close_closes_children_first :
  forall (fuel : nat) (w : window),
    height w <= fuel -> NoDup (ids w) ->
    exists (w' : window) (pre : list event),
      close fuel w =
        Some (w', pre ++ [EventsCleared (wid w)] ++ snd (close_document w) ++
                  map (fun t => HostStop (snd t) (wid w) (fst t)) (__timers w) ++
                  [CloseReturn (wid w)]) /\
      firsts (closes pre) = flat_map ids (frames w) /\
      (forall d, d ∈ flat_map ids (frames w) <-> CloseReturn d ∈ pre) /\
      (CloseReturn (wid w) ∉ pre) /\
      w' = closed w /\ _document w' = None /\ __timers w' = [].
Proof.
  intros fuel w Hh Hnd.
  destruct (close_closes fuel w Hh Hnd) as (pre & Hclose & Hpre).
  exists (closed w), pre. split; [exact Hclose|]. split; [exact Hpre|].
  assert (forall d, d ∈ flat_map ids (frames w) <-> CloseReturn d ∈ pre) as Hiff.
  { intros d. by rewrite <- Hpre, elem_of_firsts, elem_of_closes. }
  split; [exact Hiff|]. split.
  - intros Hin. apply Hiff in Hin. destruct w as [i d ts kids]; simpl in *.
    apply NoDup_app in Hnd as (_ & Hdisj & _).
    apply (Hdisj i Hin). by apply list_elem_of_singleton.
  - by destruct w.
Qed.

(** The window with two nested child frames: the grandchild's
    [close()] returns first, then the child's, the root's last. *)
Lemma close_closes_children_first_witness :
  exists (w' : window) (pre : list event),
    close 3 nested_frames =
      Some (w', pre ++ [EventsCleared 1; BodyCleared 1; DocListenersCleared 1; DocClose 1;
                        HostStop clearTimeout 1 4; HostStop clearInterval 1 6;
                        CloseReturn 1]) /\
    firsts (closes pre) = [3; 2] /\
    _document w' = None /\ __timers w' = [].
Proof.
  destruct (close_closes_children_first 3 nested_frames) as (w' & pre & H1 & H2 & _ & _ & _ & H3 & H4).
  - simpl. lia.
  - apply (bool_decide_unpack _). vm_compute. exact I.
  - exists w', pre. split; [exact H1|]. split; [exact H2|]. split; [exact H3|exact H4].
Defined.

(** C9: once [close()] of a window has returned, the window has no
    document, and the deferred load task run on it stops at its first
    test: it creates no event, dispatches nothing and adds no listener. *)
Theorem load_task_after_close_does_nothing :
  forall (fuel : nat) (w : window),
    height w <= fuel ->
    exists (w' : window) (tr : list event),
      close fuel w = Some (w', tr) /\ _document w' = None /\ loadTask w' = [].
Proof.
  intros fuel w Hh.
  destruct (close_total fuel w Hh) as (w' & tr & Hc & _ & Hd & _).
  exists w', tr. split; [done|]. split; [done|].
  unfold loadTask. by rewrite Hd.
Qed.

(** On the window with two nested frames the task dispatches [load]
    when it runs before [close()], and does nothing after it. *)
Lemma load_task_after_close_does_nothing_witness :
  loadTask nested_frames =
    [CreateEvent 1 "HTMLEvents"; InitEvent 1 "load"; DispatchEvent 1] /\
  exists (w' : window) (tr : list event),
    close 3 nested_frames = Some (w', tr) /\ _document w' = None /\ loadTask w' = [].
Proof.
  split; [reflexivity|].
  apply (load_task_after_close_does_nothing 3 nested_frames). simpl. lia.
Defined.

End CloseFacts.

(** ** getComputedStyle *)

Module CssFacts.
Import Css.

Section Blocks.
Context {B : Type} {D : Declaration B}.

Lemma apply_writes_app (ws1 ws2 : list write) (cs : B) :
  apply_writes (ws1 ++ ws2) cs = apply_writes ws2 (apply_writes ws1 cs).
Proof. unfold apply_writes. apply fold_left_app. Qed.

Lemma copy_style_writes (st : style) (cs : B) :
  copy_style st cs = apply_writes (writes_of_style st) cs.
Proof.
  unfold copy_style, apply_writes, writes_of_style.
  generalize (map fst st) as names. intros names. revert cs.
  induction names as [|n names IH]; intros cs; simpl; [done|]. apply IH.
Qed.

(** The loop over the branches of a selector list, with its flag. *)
Lemma selector_loop (node : element) (st : style) (sels : list string)
    (matched : bool) (cs : B) :
  let step := fun (acc : bool * B) sel =>
    let '(matched, cs) := acc in
    if negb (String.eqb sel "") && negb (String.eqb sel ",")
       && negb matched && matchesDontThrow node sel
    then (true, copy_style st cs)
    else (matched, cs) in
  let found := existsb (fun sel => negb (String.eqb sel "") && negb (String.eqb sel ",")
                                   && matchesDontThrow node sel) sels in
  fold_left step sels (matched, cs) =
  if matched then (true, cs)
  else if found then (true, copy_style st cs) else (false, cs).
Proof.
  revert matched cs. induction sels as [|sel sels IH]; intros matched cs; simpl.
  - by destruct matched.
  - destruct matched; simpl.
    + rewrite !andb_false_r, andb_false_l. apply (IH true).
    + rewrite andb_true_r.
      destruct (negb (String.eqb sel "") && negb (String.eqb sel ",")
                && matchesDontThrow node sel); simpl.
      * apply (IH true).
      * apply (IH false).
Qed.

(** Matching that does not throw answers [true] exactly when
    [matches] does. *)
Lemma matchesDontThrow_true (node : element) (sel : string) :
  matchesDontThrow node sel = selector_matches node sel.
Proof. unfold matchesDontThrow, selector_matches. by destruct (matches node sel) as [[]|]. Qed.

Lemma has_screen_includes (m : list string) : has_screen m = includes_screen m.
Proof.
  unfold has_screen, includes_screen.
  destruct (in_dec string_dec "screen" m) as [Hin|Hnin].
  - apply existsb_exists. exists "screen". split; [done|reflexivity].
  - apply not_true_is_false. intros (x & Hx & Heq)%existsb_exists.
    apply String.eqb_eq in Heq. by subst.
Qed.

Lemma setPropertiesFromRule_writes (node : element) (cs : B) (r : rule) :
  setPropertiesFromRule node cs r = apply_writes (writes_of_rule node r) cs.
Proof.
  unfold setPropertiesFromRule, writes_of_rule, rule_matches.
  destruct (selectorText r) as [text|]; [|done].
  destruct (String.eqb text ""); simpl; [done|].
  rewrite (selector_loop node (rstyle r) (split text) false cs).
  assert (existsb (fun sel => negb (String.eqb sel "") && negb (String.eqb sel ",")
                              && matchesDontThrow node sel) (split text) =
          existsb (fun sel => negb (String.eqb sel "") && negb (String.eqb sel ",")
                              && selector_matches node sel) (split text)) as ->.
  { induction (split text) as [|sel sels IH]; simpl; [done|].
    by rewrite matchesDontThrow_true, IH. }
  destruct (existsb _ (split text)); simpl; [|done].
  apply copy_style_writes.
Qed.

Lemma rules_writes (node : element) (rs : list rule) (cs : B) :
  fold_left (setPropertiesFromRule node) rs cs =
  apply_writes (flat_map (writes_of_rule node) rs) cs.
Proof.
  revert cs. induction rs as [|r rs IH]; intros cs; simpl; [done|].
  by rewrite IH, apply_writes_app, setPropertiesFromRule_writes.
Qed.

Lemma readStylesFromStyleSheet_writes (node : element) (cs : B) (sh : sheet) :
  readStylesFromStyleSheet node cs sh =
  match writes_of_sheet node sh with
  | Some ws => Js.Normal (apply_writes ws cs)
  | None => Js.Throw Js.TypeError
  end.
Proof.
  revert cs. induction sh as [|r sh IH]; intros cs; simpl; [done|].
  destruct (media r) as [m|].
  - rewrite has_screen_includes. destruct (includes_screen m).
    + destruct (cssRules r) as [rs|]; [|done].
      rewrite IH. destruct (writes_of_sheet node sh); [|done].
      by rewrite apply_writes_app, rules_writes.
    + rewrite IH. by destruct (writes_of_sheet node sh).
  - rewrite IH. destruct (writes_of_sheet node sh); [|done].
    by rewrite apply_writes_app, setPropertiesFromRule_writes.
Qed.

Lemma read_sheets_writes (node : element) (cs : B) (shs : list sheet) :
  read_sheets node cs shs =
  match writes_of_sheets node shs with
  | Some ws => Js.Normal (apply_writes ws cs)
  | None => Js.Throw Js.TypeError
  end.
Proof.
  revert cs. induction shs as [|sh shs IH]; intros cs; simpl; [done|].
  rewrite readStylesFromStyleSheet_writes.
  destruct (writes_of_sheet node sh) as [ws|]; [|done].
  rewrite IH. destruct (writes_of_sheets node shs); [|done].
  by rewrite apply_writes_app.
Qed.

Lemma getComputedStyle_writes (d : sheet) (node : element) :
  getComputedStyle d node =
  match writes d node with
  | Some ws => Js.Normal (apply_writes ws new_block)
  | None => Js.Throw Js.TypeError
  end.
Proof.
  unfold getComputedStyle, writes.
  rewrite readStylesFromStyleSheet_writes.
  destruct (writes_of_sheet node d) as [wd|]; [|done].
  rewrite read_sheets_writes.
  destruct (writes_of_sheets node (styleSheets node)) as [ws|]; [|done].
  by rewrite copy_style_writes, !apply_writes_app.
Qed.

Lemma leaves_apply_writes (p : string) (ws : list write) (cs : B) :
  Forall (leaves p) ws -> read_value (apply_writes ws cs) p = read_value cs p.
Proof.
  unfold apply_writes. intros Hall. revert cs.
  induction Hall as [|w ws Hw _ IH]; intros cs; simpl; [done|].
  rewrite IH. apply Hw.
Qed.

(** A write the block takes is what is read at the end, if the writes
    after it leave its property alone. *)
Lemma taken_write_is_read (ws1 ws2 : list write) (w : write) (cs : B) :
  takes w -> Forall (leaves (fst w)) ws2 ->
  read_value (apply_writes (ws1 ++ w :: ws2) cs) (fst w) = fst (snd w).
Proof.
  intros Ht Hl. rewrite apply_writes_app.
  change (apply_writes (w :: ws2) (apply_writes ws1 cs))
    with (apply_writes ws2 (setProperty (fst w) (fst (snd w)) (snd (snd w))
                                        (apply_writes ws1 cs))).
  rewrite leaves_apply_writes by done. apply Ht.
Qed.

End Blocks.

(** The blocks kept as lists. *)
Lemma find_removeProperty (p q : string) (cs : style) :
  List.find (fun d => String.eqb (fst d) q) (removeProperty p cs) =
  if String.eqb p q then None else List.find (fun d => String.eqb (fst d) q) cs.
Proof.
  unfold removeProperty. induction cs as [|d cs IH]; simpl.
  - by destruct (String.eqb p q).
  - destruct (String.eqb (fst d) p) eqn:Hdp; simpl.
    + apply String.eqb_eq in Hdp. rewrite IH, Hdp. by destruct (String.eqb p q).
    + rewrite IH. destruct (String.eqb (fst d) q) eqn:Hdq; [|done].
      apply String.eqb_eq in Hdq. rewrite <- Hdq, String.eqb_sym, Hdp. done.
Qed.

Lemma find_upsert (p v pr q : string) (cs : style) :
  List.find (fun d => String.eqb (fst d) q) (upsert p v pr cs) =
  if String.eqb p q then Some (p, (v, pr)) else List.find (fun d => String.eqb (fst d) q) cs.
Proof.
  induction cs as [|d cs IH]; simpl.
  - by destruct (String.eqb p q).
  - destruct (String.eqb (fst d) p) eqn:Hdp; simpl.
    + apply String.eqb_eq in Hdp. rewrite Hdp. by destruct (String.eqb p q).
    + rewrite IH. destruct (String.eqb (fst d) q) eqn:Hdq; [|done].
      apply String.eqb_eq in Hdq. rewrite <- Hdq, String.eqb_sym, Hdp. done.
Qed.

(** The block that takes every write takes every write. *)
Lemma taking_block_takes (w : write) : takes (D := taking_block) w.
Proof.
  intros cs. simpl. unfold checked_setProperty, getPropertyValue.
  destruct (String.eqb (fst (snd w)) "") eqn:Hv.
  - apply String.eqb_eq in Hv. rewrite find_removeProperty, String.eqb_refl. by rewrite Hv.
  - by rewrite find_upsert, String.eqb_refl.
Qed.

Lemma taking_block_leaves (p : string) (w : write) :
  fst w <> p -> leaves (D := taking_block) p w.
Proof.
  intros Hne cs. simpl. unfold checked_setProperty, getPropertyValue.
  apply String.eqb_neq in Hne.
  destruct (String.eqb (fst (snd w)) "").
  - by rewrite find_removeProperty, Hne.
  - by rewrite find_upsert, Hne.
Qed.

(** [scan] and [inquote] cut the text in two. *)
Lemma scan_length (s : string) :
  (forall m r, scan s = (m, r) -> String.length s = String.length m + String.length r) /\
  (forall q m r, inquote q s = Some (m, r) ->
                 String.length s = String.length m + String.length r).
Proof.
  induction s as [|c s [IHs IHq]]; simpl.
  - split; [|done]. by intros m r [= <- <-].
  - split.
    + intros m r. destruct (Ascii.eqb c comma); [by intros [= <- <-]|].
      destruct (Ascii.eqb c dquote || Ascii.eqb c squote).
      * destruct (inquote c s) as [[m' r']|] eqn:Hq; [|by intros [= <- <-]].
        intros [= <- <-]. simpl. by rewrite (IHq c m' r' Hq).
      * destruct (scan s) as [m' r'] eqn:Hs. intros [= <- <-]. simpl.
        by rewrite (IHs m' r' eq_refl).
    + intros q m r. destruct (Ascii.eqb c q).
      * destruct (scan s) as [m' r'] eqn:Hs. intros [= <- <-]. simpl.
        by rewrite (IHs m' r' eq_refl).
      * destruct (inquote q s) as [[m' r']|] eqn:Hq; [|done].
        intros [= <- <-]. simpl. by rewrite (IHq q m' r' Hq).
Qed.

(** The bound [split] gives its loop is never used up: any two
    bounds above the length of the text give the same pieces. *)
Lemma split_loop_enough (f1 f2 : nat) (pending s : string) :
  String.length s < f1 -> String.length s < f2 ->
  split_loop f1 pending s = split_loop f2 pending s.
Proof.
  revert f2 pending s. induction f1 as [|f1 IH]; intros f2 pending s H1 H2; [lia|].
  destruct f2 as [|f2]; [lia|]. destruct s as [|c s]; [done|].
  cbn [split_loop].
  destruct (scan (String c s)) as [m rest] eqn:Hscan.
  apply (proj1 (scan_length (String c s))) in Hscan.
  simpl in H1, H2, Hscan.
  destruct m as [|a m].
  - apply IH; lia.
  - simpl in Hscan. f_equal. f_equal. apply IH; lia.
Qed.

(** C5 as stated does not hold: a later write need not override an
    earlier one.  The sheet holds [div { width: 10px }] and then
    [div { width: 10 }]; both rules match and both values are written,
    in this order, but a block that takes a length only with its unit
    keeps [10px]. *)
Lemma rejected_write_does_not_override :
  writes [] widths_div = Some [("width", ("10px", "")); ("width", ("10", ""))] /\
  getComputedStyle (D := checked_block lengths_need_units) [] widths_div =
    Js.Normal [("width", ("10px", ""))] /\
  read_value (Declaration := checked_block lengths_need_units)
             [("width", ("10px", ""))] "width" = "10px".
Proof. split; [reflexivity|]. split; reflexivity. Qed.

(** C5, amended: [getComputedStyle] makes, on an empty block, the
    writes of the matching rules of the built-in sheet (a rule under a
    media list counts only if the list includes ["screen"], a rule
    without a media list always), then those of the document's sheets
    in document order, then those of the inline style; it throws,
    instead, when a sheet has a rule whose media list includes
    ["screen"] and that has no rules under it.  A write the block takes
    is what is read for its property afterwards, as long as the writes
    after it leave the property alone: a later write overrides an
    earlier one only if the block takes it.  In particular, with
    [div, p { color: red }] in a sheet, a [div] whose inline style says
    [color: blue] reads [color] as [blue] if the block takes [blue],
    whatever the built-in sheet holds, if reading it does not throw.
    With the block that takes every write: that [div] reads [blue],
    without the inline style it reads [red], and under
    [@media print], [@media screen] and a rule for [p] it reads what
    stands under [@media screen]. *)
Theorem getComputedStyle_last_write_wins :
  (forall (B : Type) (D : Declaration B) (defaultStyleSheet : sheet) (node : element),
      getComputedStyle defaultStyleSheet node =
        match writes defaultStyleSheet node with
        | Some ws => Js.Normal (apply_writes ws new_block)
        | None => Js.Throw Js.TypeError
        end) /\
  (forall (B : Type) (D : Declaration B) (defaultStyleSheet : sheet) (node : element)
          (ws1 ws2 : list write) (w : write),
      writes defaultStyleSheet node = Some (ws1 ++ w :: ws2) ->
      takes w -> Forall (leaves (fst w)) ws2 ->
      exists cs, getComputedStyle defaultStyleSheet node = Js.Normal cs /\
                 read_value cs (fst w) = fst (snd w)) /\
  (forall (B : Type) (D : Declaration B) (defaultStyleSheet : sheet) (wd : list write),
      writes_of_sheet blue_div defaultStyleSheet = Some wd ->
      takes ("color", ("blue", "")) ->
      exists cs, getComputedStyle defaultStyleSheet blue_div = Js.Normal cs /\
                 read_value cs "color" = "blue") /\
  getComputedStyle (D := taking_block) [] blue_div = Js.Normal [("color", ("blue", ""))] /\
  getComputedStyle (D := taking_block) [] plain_div = Js.Normal [("color", ("red", ""))] /\
  getComputedStyle (D := taking_block) [] media_div = Js.Normal [("color", ("red", ""))].
Proof.
  assert (forall (B : Type) (D : Declaration B) d node ws1 ws2 w,
            writes d node = Some (ws1 ++ w :: ws2) ->
            takes w -> Forall (leaves (fst w)) ws2 ->
            exists cs, getComputedStyle d node = Js.Normal cs /\
                       read_value cs (fst w) = fst (snd w)) as Hlast.
  { intros B D d node ws1 ws2 w Hw Ht Hl.
    rewrite getComputedStyle_writes, Hw. eexists. split; [reflexivity|].
    by apply taken_write_is_read. }
  split; [intros; apply getComputedStyle_writes|].
  split; [exact Hlast|].
  split; [|split; [reflexivity|split; reflexivity]].
  intros B D d wd Hd Ht.
  apply (Hlast B D d blue_div (wd ++ [("color", ("red", ""))]) [] ("color", ("blue", ""))).
  - unfold writes. rewrite Hd. simpl. by rewrite <- app_assoc.
  - exact Ht.
  - constructor.
Qed.

(** With the block that takes every write, the [div] with the inline
    [color: blue] under the sheet [div, p { color: red }]. *)
Lemma getComputedStyle_last_write_wins_witness :
  exists cs, getComputedStyle (D := taking_block) [] blue_div = Js.Normal cs /\
             read_value (Declaration := taking_block) cs "color" = "blue".
Proof.
  destruct getComputedStyle_last_write_wins as (_ & Hlast & _).
  apply (Hlast style taking_block [] blue_div [("color", ("red", ""))] []
               ("color", ("blue", ""))).
  - reflexivity.
  - apply taking_block_takes.
  - constructor.
Defined.

End CssFacts.

(** ** The XMLHttpRequest wrapper *)

Module XhrFacts.
Import Js Xhr.

Lemma strip_prefix_app (p s : string) : strip_prefix p (String.append p s) = Some s.
Proof. induction p as [|a p IH]; simpl; [done|]. by rewrite Ascii.eqb_refl. Qed.

(** C8: [open] resolves the URL against the document's URL, applies
    [fixUrlForBuggyXhr], remembers the result and passes it to the
    underlying [open].  The fix turns a leading [file:///] before a
    drive (a letter and a colon) into [file://] and keeps what follows;
    so a request opened with [file:///C:/test.html], which resolving
    leaves as it is, reaches the underlying [open] as
    [file://C:/test.html]. *)
Theorem open_remembers_fixed_url :
  forall (resolveHref : string -> string -> string) (J : Type) (doc : document J)
         (method url : string) (async user password : value),
    (open resolveHref doc method url async user password =
       (mkRequest (fixUrlForBuggyXhr (resolveHref (URL doc) url)),
        [X_open method (fixUrlForBuggyXhr (resolveHref (URL doc) url)) async user password])) /\
    (forall (c : ascii) (rest : string),
        fixUrlForBuggyXhr (String.append "file:///" (String c (String ":" rest))) =
        if is_letter c then String.append "file://" (String c (String ":" rest))
        else String.append "file:///" (String c (String ":" rest))) /\
    fixUrlForBuggyXhr "file:///C:/test.html" = "file://C:/test.html" /\
    (resolveHref (URL doc) "file:///C:/test.html" = "file:///C:/test.html" ->
     open resolveHref doc method "file:///C:/test.html" async user password =
       (mkRequest "file://C:/test.html",
        [X_open method "file://C:/test.html" async user password])).
Proof.
  intros resolveHref J doc method url async user password.
  split; [reflexivity|]. split; [|split].
  - intros c rest. unfold fixUrlForBuggyXhr. rewrite strip_prefix_app.
    rewrite Ascii.eqb_refl, andb_true_r. reflexivity.
  - reflexivity.
  - intros Hres. unfold open. rewrite Hres. reflexivity.
Qed.

Lemma open_remembers_fixed_url_witness :
  open resolve_absolute (mkDocument "http://example.org/" ([] : list_jar))
       "GET" "file:///C:/test.html" (VBool true) VUndefined VUndefined =
    (mkRequest "file://C:/test.html",
     [X_open "GET" "file://C:/test.html" (VBool true) VUndefined VUndefined]).
Proof.
  apply (open_remembers_fixed_url resolve_absolute list_jar
           (mkDocument "http://example.org/" ([] : list_jar))
           "GET" "file:///C:/test.html" (VBool true) VUndefined VUndefined).
  reflexivity.
Defined.

(** C10: when the jar answers an empty or no cookie string for the
    remembered URL, [send] only adds its listener and forwards to the
    underlying [send]: it sets no header; and it switches the header
    check, off and on again, exactly when the cookie string is not
    empty. *)
Theorem send_without_cookies_sets_no_header :
  forall (J : Type) (jar : CookieJar J) (doc : document J) (req : request) (data : value),
    let cookieStr := getCookieStringSync (_cookieJar doc) (lastUrl req) in
    (nonempty cookieStr = false <-> cookieStr = None \/ cookieStr = Some "") /\
    (nonempty cookieStr = false ->
       inject_cookies doc req = [] /\
       send doc req data = [X_addEventListener "readystatechange"; X_send data]) /\
    ((exists b, X_setDisableHeaderCheck b ∈ send doc req data) <-> nonempty cookieStr = true) /\
    ((exists name v, X_setRequestHeader name v ∈ send doc req data) <->
       nonempty cookieStr = true).
Proof.
  intros J jar doc req data cookieStr.
  split; [|split; [|split]].
  - unfold nonempty. destruct cookieStr as [s|].
    + destruct (String.eqb s "") eqn:Hs; simpl.
      * apply String.eqb_eq in Hs. subst. tauto.
      * apply String.eqb_neq in Hs. split; [done|]. intros [?|?]; congruence.
    + tauto.
  - intros Hempty. unfold send, inject_cookies. fold cookieStr. by rewrite Hempty.
  - unfold send, inject_cookies. fold cookieStr. destruct (nonempty cookieStr); simpl.
    + split; [done|]. intros _. exists true. by apply elem_of_cons; left.
    + split; [|done]. intros [b Hin].
      repeat (apply elem_of_cons in Hin as [?|Hin]; [done|]). by apply elem_of_nil in Hin.
  - unfold send, inject_cookies. fold cookieStr. destruct (nonempty cookieStr); simpl.
    + split; [done|]. intros _. eexists _, _. apply elem_of_cons; right. by apply elem_of_cons; left.
    + split; [|done]. intros (n & v & Hin).
      repeat (apply elem_of_cons in Hin as [?|Hin]; [done|]). by apply elem_of_nil in Hin.
Qed.

Lemma send_without_cookies_sets_no_header_witness :
  send (mkDocument "http://example.org/" ([] : list_jar))
       (mkRequest "http://example.org/data") (VStr "body") =
    [X_addEventListener "readystatechange"; X_send (VStr "body")].
Proof.
  apply (send_without_cookies_sets_no_header list_jar _
           (mkDocument "http://example.org/" ([] : list_jar))
           (mkRequest "http://example.org/data") (VStr "body")).
  reflexivity.
Defined.

(** C6 as stated does not hold: a request to a URL for which the jar
    holds nothing is sent; the cookie string read is empty, and [send]
    sets no [cookie] header, with no value at all. *)
Lemma send_sets_no_cookie_header_for_empty_jar :
  let doc := mkDocument "http://example.org/" ([] : list_jar) in
  let req := fst (open resolve_absolute doc "GET" "http://example.org/data"
                       (VBool true) VUndefined VUndefined) in
  getCookieStringSync (_cookieJar doc) (lastUrl req) = Some "" /\
  ~ (exists v, X_setRequestHeader "cookie" v ∈ send doc req (VStr "body")).
Proof.
  split; [reflexivity|].
  intros [v Hin]. vm_compute in Hin.
  repeat (apply elem_of_cons in Hin as [?|Hin]; [done|]). by apply elem_of_nil in Hin.
Qed.

(** C6, amended: when the jar answers a cookie string that is not
    empty for the remembered URL, [send] switches the header check off,
    sets the string as the [cookie] header, switches the check on
    again, adds its listener and forwards to the underlying [send].
    When the response to a request opened for a URL arrives with
    [set-cookie: a=1], the listener stores [a=1] in the document's jar
    for the remembered URL; a later request of the same window opened
    for the same URL remembers the same URL, and if the jar then
    answers [a=1] for it, its [send] sets the header [cookie: a=1]. *)
Theorem send_injects_stored_cookies :
  forall (resolveHref : string -> string -> string) (J : Type) (jar : CookieJar J)
         (doc : document J) (req : request) (data : value) (s : string),
    (getCookieStringSync (_cookieJar doc) (lastUrl req) = Some s -> s <> "" ->
     send doc req data =
       [X_setDisableHeaderCheck true; X_setRequestHeader "cookie" s;
        X_setDisableHeaderCheck false;
        X_addEventListener "readystatechange"; X_send data]) /\
    (forall (method url : string) (async user password : value),
       let req1 := fst (open resolveHref doc method url async user password) in
       let doc1 := fst (setReceivedCookies doc req1
                          (mkUnderlying HEADERS_RECEIVED (Single "a=1"))) in
       let req2 := fst (open resolveHref doc1 method url async user password) in
       lastUrl req2 = lastUrl req1 /\
       _cookieJar doc1 = setCookieSync "a=1" (lastUrl req1) (_cookieJar doc) /\
       (getCookieStringSync (_cookieJar doc1) (lastUrl req2) = Some "a=1" ->
        send doc1 req2 data =
          [X_setDisableHeaderCheck true; X_setRequestHeader "cookie" "a=1";
           X_setDisableHeaderCheck false;
           X_addEventListener "readystatechange"; X_send data])).
Proof.
  intros resolveHref J jar doc req data s.
  assert (forall (d : document J) (r : request) (c : string),
            getCookieStringSync (_cookieJar d) (lastUrl r) = Some c -> c <> "" ->
            send d r data =
              [X_setDisableHeaderCheck true; X_setRequestHeader "cookie" c;
               X_setDisableHeaderCheck false;
               X_addEventListener "readystatechange"; X_send data]) as Hsend.
  { intros d r c Hc Hne. unfold send, inject_cookies. rewrite Hc. simpl.
    apply String.eqb_neq in Hne. by rewrite Hne. }
  split; [apply Hsend|].
  intros method url async user password req1 doc1 req2.
  split; [reflexivity|]. split; [reflexivity|].
  intros Hjar. by apply Hsend.
Qed.

(** The scenario with the jar of the examples, empty at first. *)
Lemma send_injects_stored_cookies_witness :
  let doc := mkDocument "http://example.org/" ([] : list_jar) in
  let req1 := fst (open resolve_absolute doc "GET" "http://example.org/data"
                        (VBool true) VUndefined VUndefined) in
  let doc1 := fst (setReceivedCookies doc req1 (mkUnderlying HEADERS_RECEIVED (Single "a=1"))) in
  let req2 := fst (open resolve_absolute doc1 "GET" "http://example.org/data"
                        (VBool true) VUndefined VUndefined) in
  send doc req1 VNull = [X_addEventListener "readystatechange"; X_send VNull] /\
  send doc1 req2 VNull =
    [X_setDisableHeaderCheck true; X_setRequestHeader "cookie" "a=1";
     X_setDisableHeaderCheck false;
     X_addEventListener "readystatechange"; X_send VNull].
Proof.
  intros doc req1 doc1 req2. split; [reflexivity|].
  destruct (send_injects_stored_cookies resolve_absolute list_jar _ doc req1 VNull "a=1")
    as [_ Hlater].
  destruct (Hlater "GET" "http://example.org/data" (VBool true) VUndefined VUndefined)
    as (_ & _ & Hsend).
  apply Hsend. reflexivity.
Defined.

End XhrFacts.

(** ** More on timers *)

Module TimerProps.
Import Window TimerFacts.

Lemma set_timers_same (w : window) : set_timers (__timers w) w = w.
Proof. by destruct w. Qed.

Lemma stopTimer_loop_absent (this : nat) (id : handle) (ts : list (handle * stopFn)) :
  id ∉ map fst ts -> stopTimer_loop this id ts = (ts, []).
Proof.
  induction ts as [|t ts IH]; simpl; intros Hnot; [done|].
  apply not_elem_of_cons in Hnot as [Hne Hnot].
  assert (Nat.eqb (fst t) id = false) as -> by (apply Nat.eqb_neq; congruence).
  by rewrite IH.
Qed.

Lemma stopTimer_loop_found (this : nat) (id : handle) (stop : stopFn)
    (l1 l2 : list (handle * stopFn)) :
  id ∉ map fst l1 ->
  stopTimer_loop this id (l1 ++ (id, stop) :: l2) = (l1 ++ l2, [HostStop stop this id]).
Proof.
  induction l1 as [|t l1 IH]; simpl; intros Hnot.
  - by rewrite Nat.eqb_refl.
  - apply not_elem_of_cons in Hnot as [Hne Hnot].
    assert (Nat.eqb (fst t) id = false) as -> by (apply Nat.eqb_neq; congruence).
    by rewrite IH.
Qed.

(** X1: [stopTimer] with [undefined], or with a handle that no entry
    of the registry holds (never issued here, or stopped before), calls
    nothing and leaves the window as it is. *)
Theorem stopTimer_unknown_handle_does_nothing :
  forall (w : window) (id : option handle),
    (forall h, id = Some h -> h ∉ map fst (__timers w)) ->
    stopTimer w id = (w, []).
Proof.
  intros w [h|] Hnot; simpl; [|done].
  rewrite stopTimer_loop_absent by (by apply Hnot). by rewrite set_timers_same.
Qed.

Lemma stopTimer_unknown_handle_does_nothing_witness :
  stopTimer nested_frames (Some 99) = (nested_frames, []) /\
  stopTimer nested_frames None = (nested_frames, []).
Proof.
  split; apply stopTimer_unknown_handle_does_nothing.
  - intros h [= <-]. apply (bool_decide_unpack _). vm_compute. exact I.
  - intros h Hh. discriminate Hh.
Defined.

(** X2: [clearTimeout] and [clearInterval] are the same function: for
    a handle the registry holds, either one calls, once, the stop
    function that was stored with the handle (so [clearTimeout] on an
    interval's handle calls the host's [clearInterval]) and takes
    exactly that entry out, the others keeping their order. *)
Theorem clear_calls_the_stored_stop_function :
  forall (w : window) (hst : host) (h : handle) (stop : stopFn)
         (l1 l2 : list (handle * stopFn)),
    __timers w = l1 ++ (h, stop) :: l2 ->
    h ∉ map fst l1 ->
    timer_step (CallClearTimeout (Some h)) (w, hst) =
      (set_timers (l1 ++ l2) w, hst, [HostStop stop (wid w) h]) /\
    timer_step (CallClearInterval (Some h)) (w, hst) =
      (set_timers (l1 ++ l2) w, hst, [HostStop stop (wid w) h]).
Proof.
  intros w hst h stop l1 l2 Hts Hnot. simpl.
  by rewrite Hts, stopTimer_loop_found.
Qed.

Lemma clear_calls_the_stored_stop_function_witness :
  timer_step (CallClearTimeout (Some 6)) (nested_frames, 10) =
    (set_timers [(4, clearTimeout)] nested_frames, 10, [HostStop clearInterval 1 6]) /\
  timer_step (CallClearInterval (Some 6)) (nested_frames, 10) =
    (set_timers [(4, clearTimeout)] nested_frames, 10, [HostStop clearInterval 1 6]).
Proof.
  apply (clear_calls_the_stored_stop_function nested_frames 10 6 clearInterval
           [(4, clearTimeout)] []).
  - reflexivity.
  - apply (bool_decide_unpack _). vm_compute. exact I.
Defined.

Lemma stopTimer_loop_ok (h0 h : host) (this : nat) (id : handle) (ts : list (handle * stopFn)) :
  registry_ok h0 h ts -> registry_ok h0 h (fst (stopTimer_loop this id ts)).
Proof.
  intros [Hnd Hall].
  pose proof (stopTimer_loop_sublist this id ts) as [Hsub _].
  split.
  - eapply sublist_NoDup; [exact Hnd|]. by apply (fmap_sublist fst).
  - apply Forall_forall. intros t Ht. rewrite Forall_forall in Hall.
    apply Hall. by eapply elem_of_sublist.
Qed.

Lemma registry_ok_push (h0 h : host) (stop : stopFn) (ts : list (handle * stopFn)) :
  h0 <= h -> registry_ok h0 h ts -> registry_ok h0 (S h) (ts ++ [(h, stop)]).
Proof.
  intros Hle [Hnd Hall]. split.
  - rewrite map_app. simpl. apply NoDup_app. split; [done|]. split; [|apply NoDup_singleton].
    intros x Hx Hxh. apply list_elem_of_singleton in Hxh as ->.
    apply list_elem_of_fmap in Hx as (t & Heq & Ht).
    rewrite Forall_forall in Hall. specialize (Hall t Ht). simpl in Hall.
    unfold handle, host in *. lia.
  - apply Forall_app. split.
    + eapply Forall_impl; [exact Hall|]. simpl. lia.
    + apply Forall_singleton. simpl. lia.
Qed.

Lemma timer_step_ok (h0 : host) (c : timer_call) (w : window) (h : host) :
  h0 <= h -> registry_ok h0 h (__timers w) ->
  let '(w', h', _) := timer_step c (w, h) in
  h <= h' /\ registry_ok h0 h' (__timers w').
Proof.
  intros Hle [Hnd Hall].
  pose proof (registry_ok_push h0 h clearTimeout (__timers w) Hle (conj Hnd Hall)) as Ht.
  pose proof (registry_ok_push h0 h clearInterval (__timers w) Hle (conj Hnd Hall)) as Hi.
  destruct c as [fn ms|fn ms|id|id]; simpl.
  - rewrite timers_set_timers. split; [lia|done].
  - rewrite timers_set_timers. split; [lia|done].
  - destruct id as [id|]; simpl; [|by split].
    pose proof (stopTimer_loop_ok h0 h (wid w) id (__timers w) (conj Hnd Hall)) as Hok.
    destruct (stopTimer_loop (wid w) id (__timers w)) as [ts ev]; simpl in *.
    rewrite timers_set_timers. by split.
  - destruct id as [id|]; simpl; [|by split].
    pose proof (stopTimer_loop_ok h0 h (wid w) id (__timers w) (conj Hnd Hall)) as Hok.
    destruct (stopTimer_loop (wid w) id (__timers w)) as [ts ev]; simpl in *.
    rewrite timers_set_timers. by split.
Qed.

Lemma timer_run_ok (h0 : host) (cs : list timer_call) (w : window) (h : host) :
  h0 <= h -> registry_ok h0 h (__timers w) ->
  let '(w', h', _) := timer_run cs (w, h) in
  h <= h' /\ registry_ok h0 h' (__timers w').
Proof.
  revert w h. induction cs as [|c cs IH]; intros w h Hle Hok; cbn [timer_run].
  - by split.
  - pose proof (timer_step_ok h0 c w h Hle Hok) as Hstep.
    destruct (timer_step c (w, h)) as [[w1 h1] ev1]. destruct Hstep as [Hle1 Hok1].
    specialize (IH w1 h1 ltac:(lia) Hok1).
    destruct (timer_run cs (w1, h1)) as [[w2 h2] ev2]. simpl.
    destruct IH as [Hle2 Hok2]. split; [lia|done].
Qed.

(** X3: whatever timer calls a script makes on a new window, no two
    entries of the registry hold the same handle, and every handle held
    is one the host issued since the window was made. *)
Theorem registry_handles_are_distinct :
  forall (cs : list timer_call) (i : nat) (d : option document) (kids : list window) (h : host),
    let w := fst (fst (timer_run cs (Win i d [] kids, h))) in
    let h' := snd (fst (timer_run cs (Win i d [] kids, h))) in
    NoDup (map fst (__timers w)) /\
    Forall (fun t => h <= fst t < h') (__timers w) /\
    h <= h'.
Proof.
  intros cs i d kids h.
  pose proof (timer_run_ok h cs (Win i d [] kids) h (Nat.le_refl h)) as Hrun.
  destruct (timer_run cs (Win i d [] kids, h)) as [[w h'] tr]; simpl.
  destruct Hrun as [Hle [Hnd Hall]]; [|done].
  split; [constructor|constructor].
Qed.

(** X4: scheduling a timer and then clearing the handle that came back
    takes the window back to where it was; the host is asked to stop
    exactly that timer, with the stop function that goes with the kind
    scheduled. *)
Theorem schedule_then_clear_restores_the_registry :
  forall (w : window) (h : host) (start : startFn) (callback : nat) (ms : Z),
    Forall (fun t => fst t < h) (__timers w) ->
    let '(w1, _, res, _) := startTimer w h start (stop_of start) callback ms in
    stopTimer w1 (Some res) = (w, [HostStop (stop_of start) (wid w) res]).
Proof.
  intros w h start callback ms Hall. simpl.
  rewrite timers_set_timers, stopTimer_loop_found.
  - rewrite app_nil_r. destruct w; simpl. done.
  - intros Hx. apply list_elem_of_fmap in Hx as (t & Heq & Ht).
    rewrite Forall_forall in Hall. specialize (Hall t Ht). simpl in Hall.
    unfold handle, host in *. lia.
Qed.

Lemma schedule_then_clear_restores_the_registry_witness :
  stopTimer (set_timers [(4, clearTimeout); (6, clearInterval); (10, clearInterval)] nested_frames)
            (Some 10) =
    (nested_frames, [HostStop clearInterval 1 10]).
Proof.
  apply (schedule_then_clear_restores_the_registry nested_frames 10 setInterval 0 100%Z).
  repeat constructor.
Defined.

Lemma stopTimer_loop_count (this : nat) (id : handle) (ts : list (handle * stopFn)) :
  length (fst (stopTimer_loop this id ts)) + length (stopped (snd (stopTimer_loop this id ts))) =
  length ts.
Proof.
  induction ts as [|t ts IH]; simpl; [done|].
  destruct (Nat.eqb (fst t) id); simpl; [lia|].
  destruct (stopTimer_loop this id ts) as [rest ev]; simpl in *. lia.
Qed.

Lemma stopped_app (t1 t2 : list event) : stopped (t1 ++ t2) = stopped t1 ++ stopped t2.
Proof. unfold stopped. by rewrite flat_map_app. Qed.

Lemma timer_step_count (c : timer_call) (w : window) (h : host) :
  let '(w', _, ev) := timer_step c (w, h) in
  length (__timers w') + length (stopped ev) = length (__timers w) + length (registered ev).
Proof.
  destruct c as [fn ms|fn ms|id|id]; simpl.
  - rewrite timers_set_timers, length_app. simpl. lia.
  - rewrite timers_set_timers, length_app. simpl. lia.
  - destruct id as [id|]; simpl; [|lia].
    pose proof (stopTimer_loop_count (wid w) id (__timers w)) as Hc.
    pose proof (stopTimer_loop_sublist (wid w) id (__timers w)) as [_ Hr].
    destruct (stopTimer_loop (wid w) id (__timers w)) as [ts ev]; simpl in *.
    rewrite timers_set_timers, Hr. simpl. lia.
  - destruct id as [id|]; simpl; [|lia].
    pose proof (stopTimer_loop_count (wid w) id (__timers w)) as Hc.
    pose proof (stopTimer_loop_sublist (wid w) id (__timers w)) as [_ Hr].
    destruct (stopTimer_loop (wid w) id (__timers w)) as [ts ev]; simpl in *.
    rewrite timers_set_timers, Hr. simpl. lia.
Qed.

Lemma timer_run_count (cs : list timer_call) (w : window) (h : host) :
  let '(w', _, tr) := timer_run cs (w, h) in
  length (__timers w') + length (stopped tr) = length (__timers w) + length (registered tr).
Proof.
  revert w h. induction cs as [|c cs IH]; intros w h; cbn [timer_run].
  - simpl. lia.
  - pose proof (timer_step_count c w h) as Hstep.
    destruct (timer_step c (w, h)) as [[w1 h1] ev1].
    specialize (IH w1 h1).
    destruct (timer_run cs (w1, h1)) as [[w2 h2] ev2]. simpl.
    rewrite stopped_app, registered_app, !length_app. lia.
Qed.

(** X5: on a new window, after any timer calls, the entries left in
    the registry and the stop calls made so far add up to the timers
    scheduled: an entry leaves the registry only with a call of the
    host's stop function, and nothing else takes one out (a timer that
    has fired stays registered). *)
Theorem registry_counts_unstopped_timers :
  forall (cs : list timer_call) (i : nat) (d : option document) (kids : list window) (h : host),
    let w := fst (fst (timer_run cs (Win i d [] kids, h))) in
    let tr := snd (timer_run cs (Win i d [] kids, h)) in
    length (__timers w) + length (stopped tr) = length (registered tr).
Proof.
  intros cs i d kids h.
  pose proof (timer_run_count cs (Win i d [] kids) h) as Hrun.
  destruct (timer_run cs (Win i d [] kids, h)) as [[w h'] tr]; simpl in *. lia.
Qed.

End TimerProps.

(** ** More on closing *)

Module CloseProps.
Import Window CloseFacts.

Lemma effects_app (t1 t2 : list event) : effects (t1 ++ t2) = effects t1 ++ effects t2.
Proof. unfold effects. apply List.filter_app. Qed.

Lemma effects_stops (i : nat) (ts : list (handle * stopFn)) :
  effects (map (fun t => HostStop (snd t) i (fst t)) ts) =
  map (fun t => HostStop (snd t) i (fst t)) ts.
Proof.
  unfold effects. induction ts as [|t ts IH]; simpl; [done|]. by f_equal.
Qed.

Lemma effects_teardown (w : window) : effects (teardown_events w) = own_effects w.
Proof.
  unfold teardown_events, own_effects.
  rewrite !effects_app, effects_stops. simpl. rewrite app_nil_r. f_equal.
  destruct w as [i [d|] ts kids]; simpl; [|done].
  by destruct (body d), (has_close d).
Qed.

Lemma own_effects_frames (i : nat) d ts (k1 k2 : list window) :
  own_effects (Win i d ts k1) = own_effects (Win i d ts k2).
Proof. unfold own_effects. by destruct d. Qed.

Lemma all_effects_closed (w : window) : all_effects (closed w) = [].
Proof.
  induction w as [i d ts kids IH] using window_ind'; simpl.
  rewrite app_nil_r.
  induction IH as [|k kids Hk _ IHk]; simpl; [done|]. by rewrite Hk, IHk.
Qed.

Lemma all_effects_map_closed (kids : list window) :
  flat_map all_effects (map closed kids) = [].
Proof. induction kids as [|k kids IH]; simpl; [done|]. by rewrite all_effects_closed, IH. Qed.

Lemma forM_exact (f : window -> M window) (kids : list window) :
  Forall (fun k => exists tr, f k = Some (closed k, tr) /\
                              effects tr = all_effects k) kids ->
  exists tr, forM f kids = Some (map closed kids, tr) /\
             effects tr = flat_map all_effects kids.
Proof.
  induction 1 as [|k kids (trk & Hk & Hek) _ (trs & Hs & Hes)]; simpl.
  - by exists [].
  - exists (trk ++ trs). rewrite Hk, Hs. simpl. rewrite app_nil_r.
    split; [done|]. by rewrite effects_app, Hek, Hes.
Qed.

Lemma cleaner_exact (close_child : window -> M window) (n cur : nat) :
  (forall v, height v <= n -> NoDup (ids v) ->
     exists tr, close_child v = Some (closed v, tr) /\ effects tr = all_effects v) ->
  forall w, height w <= n -> NoDup (ids w) -> cur ∉ ids w ->
    exists tr, windowCleaner close_child cur w = Some (closed w, tr) /\
               effects tr = all_effects w.
Proof.
  intros Hchild w.
  induction w as [i d ts kids IH] using window_ind'; intros Hh Hnd Hcur.
  simpl in Hnd, Hcur.
  apply NoDup_app in Hnd as (Hkids & Hdisj & _).
  apply not_elem_of_app in Hcur as [Hcur_kids Hcur_i].
  assert (Forall (fun k => height k <= n) kids) as Hhk.
  { destruct n as [|n]; [simpl in Hh; lia|].
    apply height_Win_le in Hh. eapply Forall_impl; [exact Hh|]. simpl. lia. }
  destruct (forM_exact (windowCleaner close_child cur) kids) as (trk & Hfor & Hek).
  { apply Forall_forall. intros k Hk.
    rewrite Forall_forall in IH. apply (IH k Hk).
    - rewrite Forall_forall in Hhk. by apply Hhk.
    - by eapply NoDup_flat_map_elem.
    - intros Hin. apply Hcur_kids, elem_of_flat_map. by exists k. }
  destruct (Hchild (Win i d ts (map closed kids))) as (trc & Hc & Hec).
  { simpl. rewrite height_map_closed. exact Hh. }
  { simpl. rewrite ids_map_closed. apply NoDup_app. split; [done|]. split; [done|].
    apply NoDup_singleton. }
  simpl in Hc. rewrite map_closed_closed in Hc.
  simpl in Hec. rewrite all_effects_map_closed in Hec.
  exists (trk ++ trc). cbn [windowCleaner]. rewrite Hfor. simpl.
  assert (Nat.eqb i cur = false) as ->.
  { apply Nat.eqb_neq. intros ->. apply Hcur_i. by apply list_elem_of_singleton. }
  rewrite Hc. split; [done|].
  by rewrite effects_app, Hek, Hec.
Qed.

Lemma close_exact (n : nat) :
  forall w, height w <= n -> NoDup (ids w) ->
    exists tr, close n w = Some (closed w, tr) /\ effects tr = all_effects w.
Proof.
  induction n as [|n IHn]; intros w Hh Hnd.
  - pose proof (height_pos w). lia.
  - destruct w as [i d ts kids].
    pose proof Hnd as Hnd'. simpl in Hnd'.
    apply NoDup_app in Hnd' as (Hkids & Hdisj & _).
    apply height_Win_le in Hh.
    destruct (forM_exact (windowCleaner (close n) i) kids) as (trk & Hfor & Hek).
    { apply Forall_forall. intros k Hk.
      apply (cleaner_exact (close n) n i); [exact IHn| | |].
      - rewrite Forall_forall in Hh. by apply Hh.
      - by eapply NoDup_flat_map_elem.
      - intros Hin. apply (Hdisj i); [|by apply list_elem_of_singleton].
        apply elem_of_flat_map. by exists k. }
    exists (trk ++ teardown_events (Win i d ts kids)). split.
    + cbn [close windowCleaner wid]. rewrite Hfor. simpl mbind.
      rewrite Nat.eqb_refl. unfold teardown_events. simpl.
      destruct d as [d|]; simpl; by rewrite !app_nil_r.
    + rewrite effects_app, effects_teardown, Hek. simpl.
      f_equal. apply own_effects_frames.
Qed.

(** X8: closing the root of a frame tree of distinct windows touches
    each window's document once and calls the stop function of each
    entry of each window's registry once, window after window with
    children first; the repeated [close()] calls on nested windows
    find nothing left to do. *)
Theorem close_tears_down_each_window_once :
  forall (fuel : nat) (w : window),
    height w <= fuel -> NoDup (ids w) ->
    exists (w' : window) (tr : list event),
      close fuel w = Some (w', tr) /\ effects tr = all_effects w.
Proof.
  intros fuel w Hh Hnd.
  destruct (close_exact fuel w Hh Hnd) as (tr & Hc & He).
  by exists (closed w), tr.
Qed.

Lemma close_tears_down_each_window_once_witness :
  exists (w' : window) (tr : list event),
    close 3 nested_frames = Some (w', tr) /\
    effects tr =
      [DocListenersCleared 3; DocClose 3; HostStop clearTimeout 3 7;
       BodyCleared 2; DocListenersCleared 2; DocClose 2; HostStop clearInterval 2 5;
       BodyCleared 1; DocListenersCleared 1; DocClose 1;
       HostStop clearTimeout 1 4; HostStop clearInterval 1 6].
Proof.
  apply (close_tears_down_each_window_once 3 nested_frames).
  - simpl. lia.
  - apply (bool_decide_unpack _). vm_compute. exact I.
Defined.

(** X9: closing a window again, after its [close()] has returned,
    returns too, leaves the tree as it is, and calls nothing on any
    document or on the host. *)
Theorem close_again_does_nothing :
  forall (fuel : nat) (w : window),
    height w <= fuel -> NoDup (ids w) ->
    exists (w' : window) (tr tr' : list event),
      close fuel w = Some (w', tr) /\
      close fuel w' = Some (w', tr') /\ effects tr' = [].
Proof.
  intros fuel w Hh Hnd.
  destruct (close_exact fuel w Hh Hnd) as (tr & Hc & _).
  destruct (close_exact fuel (closed w)) as (tr' & Hc' & He').
  { by rewrite height_closed. }
  { by rewrite ids_closed. }
  rewrite closed_closed in Hc'. rewrite all_effects_closed in He'.
  by exists (closed w), tr, tr'.
Qed.

Lemma close_again_does_nothing_witness :
  exists (w' : window) (tr tr' : list event),
    close 3 nested_frames = Some (w', tr) /\
    close 3 w' = Some (w', tr') /\ effects tr' = [].
Proof.
  apply (close_again_does_nothing 3 nested_frames).
  - simpl. lia.
  - apply (bool_decide_unpack _). vm_compute. exact I.
Defined.

Lemma timer_step_frame (c : timer_call) (w : window) (h : host) :
  exists ts, fst (fst (timer_step c (w, h))) =
             Win (wid w) (_document w) ts (frames w).
Proof.
  destruct w as [i d ts kids].
  destruct c as [fn ms|fn ms|[id|]|[id|]]; simpl; try by eexists.
  - destruct (stopTimer_loop i id ts) as [ts' ev]. by eexists.
  - destruct (stopTimer_loop i id ts) as [ts' ev]. by eexists.
Qed.

Lemma timer_run_frame (cs : list timer_call) (w : window) (h : host) :
  exists ts, fst (fst (timer_run cs (w, h))) =
             Win (wid w) (_document w) ts (frames w).
Proof.
  revert w h. induction cs as [|c cs IH]; intros w h; cbn [timer_run].
  - exists (__timers w). by destruct w.
  - destruct (timer_step_frame c w h) as [ts1 H1].
    destruct (timer_step c (w, h)) as [[w1 h1] ev1]. simpl in H1. subst w1.
    destruct (IH (Win (wid w) (_document w) ts1 (frames w)) h1) as [ts2 H2].
    destruct (timer_run cs _) as [[w2 h2] ev2]. simpl in *. by exists ts2.
Qed.

(** X10: no timer outlives its window: whatever a script scheduled and
    cleared on a new window, once the window is closed the host has
    been asked, before or by [close()], to stop every timer that was
    scheduled. *)
Theorem close_stops_every_scheduled_timer :
  forall (cs : list timer_call) (i : nat) (d : option document) (kids : list window)
         (h : host) (fuel : nat),
    height (Win i d [] kids) <= fuel -> NoDup (ids (Win i d [] kids)) ->
    let w := fst (fst (timer_run cs (Win i d [] kids, h))) in
    let tr := snd (timer_run cs (Win i d [] kids, h)) in
    exists (w' : window) (tr' : list event),
      close fuel w = Some (w', tr') /\
      forall t, t ∈ registered tr -> HostStop (snd t) i (fst t) ∈ tr ++ tr'.
Proof.
  intros cs i d kids h fuel Hh Hnd.
  destruct (timer_run_frame cs (Win i d [] kids) h) as [ts Hw]. simpl in Hw.
  pose proof (TimerFacts.timer_run_stops cs (Win i d [] kids) h) as Hstops.
  destruct (timer_run cs (Win i d [] kids, h)) as [[w h'] tr]; simpl in *. subst w.
  destruct (close_closes fuel (Win i d ts kids)) as (pre & Hc & _); [done..|].
  exists (closed (Win i d ts kids)), (pre ++ teardown_events (Win i d ts kids)).
  split; [exact Hc|]. intros t Ht.
  destruct (Hstops t) as [_ Hor]. destruct (Hor Ht) as [Hin|Hin].
  - apply elem_of_app. right. apply elem_of_app. right.
    unfold teardown_events. simpl.
    apply elem_of_cons. right. apply elem_of_app. right. apply elem_of_app. left.
    apply list_elem_of_fmap. by exists t.
  - apply elem_of_app. by left.
Qed.

Lemma close_stops_every_scheduled_timer_witness :
  let cs := [CallSetTimeout 0 10%Z; CallSetInterval 1 20%Z; CallClearTimeout (Some 11)] in
  let w := fst (fst (timer_run cs (Win 1 None [] [], 10))) in
  let tr := snd (timer_run cs (Win 1 None [] [], 10)) in
  registered tr = [(10, clearTimeout); (11, clearInterval)] /\
  exists (w' : window) (tr' : list event),
    close 1 w = Some (w', tr') /\
    forall t, t ∈ registered tr -> HostStop (snd t) 1 (fst t) ∈ tr ++ tr'.
Proof.
  intros cs w tr. split; [reflexivity|].
  apply (close_stops_every_scheduled_timer cs 1 None [] 10 1).
  - simpl. lia.
  - apply (bool_decide_unpack _). vm_compute. exact I.
Defined.

End CloseProps.

(** ** More on the console router *)

Module ConsoleProps.
Import Js VirtualConsole ConsoleFacts.

Lemma forwarded_none (anyConsole : value) (name : string) (ks : list string) :
  (forall f, get anyConsole name <> Normal (VFun f)) ->
  forwarded anyConsole name ks = [].
Proof.
  intros Hnot. unfold forwarded. induction ks as [|k ks IH]; simpl; [done|].
  destruct (String.eqb k name) eqn:Hk; simpl; [|done].
  apply String.eqb_eq in Hk. subst k.
  destruct (get anyConsole name) as [f|x] eqn:Hget; [|done].
  destruct f; simpl; try done. by destruct (Hnot name0).
Qed.

(** X11: [sendTo] only ever adds listeners, at the end: for every event
    name the listeners that were there stay, in order and in front,
    whether the call returns or throws; and nothing is added for a name
    that is neither ["jsdomError"] nor a property of the sink that holds
    a function. *)
Theorem sendTo_only_adds_listeners :
  forall (r : t) (arguments : list value) (name : string),
    exists added,
      listeners (fst (sendTo r arguments)) name = listeners r name ++ added /\
      (name <> "jsdomError" ->
       (forall f, get (arg 0 arguments) name <> Normal (VFun f)) ->
       added = []).
Proof.
  intros r arguments name. unfold sendTo.
  destruct (keys (arg 0 arguments)) as [ks|x].
  - set (fw := map (fun method => LForward (arg 0 arguments) method arguments)
                   (forwarded (arg 0 arguments) name ks)).
    assert ((forall f, get (arg 0 arguments) name <> Normal (VFun f)) -> fw = []) as Hfw.
    { intros Hnot. unfold fw. by rewrite forwarded_none. }
    destruct (get (options_of arguments) "omitJsdomErrors") as [omit|x]; simpl.
    + destruct (truthy omit); simpl.
      * exists fw. rewrite listeners_register_methods. split; [done|]. intros _. exact Hfw.
      * rewrite listeners_on, listeners_register_methods.
        destruct (decide ("jsdomError" = name)) as [Heq|Hne].
        -- exists (fw ++ [LJsdomError (arg 0 arguments)]). rewrite <- app_assoc.
           split; [done|]. intros Hn. by destruct Hn.
        -- exists fw. split; [done|]. intros _. exact Hfw.
    + exists fw. rewrite listeners_register_methods. split; [done|]. intros _. exact Hfw.
  - exists []. simpl. by rewrite app_nil_r.
Qed.

(** X12: [sendTo] without a sink throws a [TypeError] and leaves the
    router as it was; [sendTo(sink, null)] throws a [TypeError] too, but
    only after the loop over the sink's properties: the method
    forwarders are registered all the same, while the listener for
    ["jsdomError"] is not. *)
Theorem sendTo_failures :
  forall (r : t) (sid : nat) (props : list (string * value)) (name : string),
    let sink := VObj sid props in
    sendTo r [] = (r, Throw TypeError) /\
    sendTo r [VNull] = (r, Throw TypeError) /\
    snd (sendTo r [sink; VNull]) = Throw TypeError /\
    listeners (fst (sendTo r [sink; VNull])) name =
      listeners r name ++
      map (fun method => LForward sink method [sink; VNull])
          (forwarded sink name (map fst props)).
Proof.
  intros r sid props name sink.
  split; [done|]. split; [done|]. split; [done|].
  unfold sendTo. simpl. apply listeners_register_methods.
Qed.

Lemma emit_jsdomError_after_sendTo (r : t) (arguments : list value) (sid : nat)
    (props : list (string * value)) (omit : value) (emitted : list value)
    (before : list call) :
  arg 0 arguments = VObj sid props ->
  get (options_of arguments) "omitJsdomErrors" = Normal omit ->
  truthy omit = false ->
  call_listeners (listeners r "jsdomError") emitted = (before, Normal tt) ->
  exists calls,
    emit (fst (sendTo r arguments)) "jsdomError" emitted =
    bind (before ++ calls, Normal tt)
         (fun _ => bind (call_listener (LJsdomError (VObj sid props)) emitted)
                        (fun _ => ret true)).
Proof.
  intros Harg Hopt Hom Hbefore.
  destruct (listeners_sendTo r arguments (map fst props) omit "jsdomError") as [_ Hl].
  { by rewrite Harg. }
  { done. }
  rewrite Harg, Hom in Hl. simpl in Hl.
  destruct (call_forwarded_normal (VObj sid props) arguments "jsdomError" (map fst props)
              emitted) as [calls Hcalls].
  exists calls. unfold emit. rewrite Hl.
  match goal with |- context [match ?l with [] => _ | _ :: _ => _ end] =>
    destruct l eqn:Hnil end.
  { destruct (listeners r "jsdomError"); [|discriminate].
    simpl in Hnil. by destruct (map _ _). }
  rewrite <- Hnil. rewrite !call_listeners_app, Hbefore, Hcalls.
  cbn [call_listeners]. unfold bind, ret.
  destruct (call_listener (LJsdomError (VObj sid props)) emitted) as [tc [[]|x]]; simpl.
  - by rewrite !app_nil_r, !app_assoc.
  - by rewrite !app_assoc.
Qed.

(** X13: what goes wrong with ["jsdomError"] when a sink is attached
    without [omitJsdomErrors]: if the sink's [error] is not a function,
    every emit of ["jsdomError"] throws a [TypeError]; and if nothing,
    [undefined] or [null] is emitted as the failure, the emit throws a
    [TypeError] even for a sink with an [error] method.  In both cases
    the closure for [error] has called nothing when it throws. *)
Theorem jsdomError_emit_failures :
  forall (r : t) (arguments : list value) (sid : nat) (props : list (string * value))
         (omit : value) (emitted : list value) (before : list call),
    arg 0 arguments = VObj sid props ->
    get (options_of arguments) "omitJsdomErrors" = Normal omit ->
    truthy omit = false ->
    call_listeners (listeners r "jsdomError") emitted = (before, Normal tt) ->
    is_function (assoc "error" props) = false \/
      arg 0 emitted = VUndefined \/ arg 0 emitted = VNull ->
    call_listener (LJsdomError (VObj sid props)) emitted = ([], Throw TypeError) /\
    exists calls,
      emit (fst (sendTo r arguments)) "jsdomError" emitted =
        (before ++ calls, Throw TypeError).
Proof.
  intros r arguments sid props omit emitted before Harg Hopt Hom Hbefore Hbad.
  assert (call_listener (LJsdomError (VObj sid props)) emitted = ([], Throw TypeError))
    as Hthrow.
  { simpl. destruct Hbad as [Hf|[He|He]].
    - destruct (get (arg 0 emitted) "stack") as [st|[]] eqn:Hs; [|done|].
      + destruct (get (arg 0 emitted) "detail") as [dt|[]] eqn:Hd; [|done|].
        * unfold apply. by rewrite Hf.
        * by destruct (arg 0 emitted).
      + by destruct (arg 0 emitted).
    - by rewrite He.
    - by rewrite He. }
  split; [exact Hthrow|].
  destruct (emit_jsdomError_after_sendTo r arguments sid props omit emitted before
              Harg Hopt Hom Hbefore) as [calls Hemit].
  exists calls. rewrite Hemit, Hthrow. simpl. by rewrite app_nil_r.
Qed.

(** A console without [error] attached to a new router, and a failure
    emitted on it. *)
Lemma jsdomError_emit_failures_witness :
  exists calls,
    emit (fst (sendTo new [VObj 1 [("log", VFun "log")]])) "jsdomError"
         [VObj 2 [("stack", VStr "Error: boom")]] =
      ([] ++ calls, Throw TypeError).
Proof.
  apply (jsdomError_emit_failures new [VObj 1 [("log", VFun "log")]] 1
           [("log", VFun "log")] VUndefined
           [VObj 2 [("stack", VStr "Error: boom")]] []);
    try reflexivity.
  by left.
Defined.

End ConsoleProps.

(** ** More on the XMLHttpRequest wrapper *)

Module XhrProps.
Import Js Xhr XhrFacts.

Lemma strip_prefix_Some (p s r : string) :
  strip_prefix p s = Some r -> s = String.append p r.
Proof.
  revert s. induction p as [|a p IH]; intros s; simpl.
  - by intros [= ->].
  - destruct s as [|b s]; [done|].
    destruct (Ascii.eqb_spec a b) as [->|]; [|done].
    intros H. by rewrite (IH s H).
Qed.

Lemma letter_not_slash (c : ascii) : is_letter c = true -> Ascii.eqb "/" c = false.
Proof.
  intros Hc. destruct (Ascii.eqb_spec "/" c) as [<-|]; [|done].
  vm_compute in Hc. discriminate.
Qed.

(** The two shapes of the result. *)
Lemma fixUrlForBuggyXhr_cases (url : string) :
  fixUrlForBuggyXhr url = url \/
  exists (c : ascii) (rest : string),
    is_letter c = true /\
    url = String.append "file:///" (String c (String ":" rest)) /\
    fixUrlForBuggyXhr url = String.append "file://" (String c (String ":" rest)).
Proof.
  unfold fixUrlForBuggyXhr.
  destruct (strip_prefix "file:///" url) as [[|c [|d rest]]|] eqn:Hp; try by left.
  destruct (is_letter c) eqn:Hc; simpl; [|by left].
  destruct (Ascii.eqb_spec d ":") as [->|]; [|by left].
  right. exists c, rest. split; [done|]. split; [|done].
  by apply strip_prefix_Some.
Qed.

(** X14: [fixUrlForBuggyXhr] changes a URL by at most taking out the
    third slash of a leading [file:///], and only when a drive letter
    and a colon follow; every other URL, [http:] ones and
    [file:///home/...] among them, comes back as it is. *)
Theorem fixUrlForBuggyXhr_only_drops_one_slash :
  forall url : string,
    (fixUrlForBuggyXhr url = url \/
     exists (c : ascii) (rest : string),
       is_letter c = true /\
       url = String.append "file:///" (String c (String ":" rest)) /\
       fixUrlForBuggyXhr url = String.append "file://" (String c (String ":" rest))) /\
    String.length (fixUrlForBuggyXhr url) <= String.length url <=
      S (String.length (fixUrlForBuggyXhr url)) /\
    (starts_with "file:///" url = false -> fixUrlForBuggyXhr url = url).
Proof.
  intros url. split; [apply fixUrlForBuggyXhr_cases|]. split.
  - destruct (fixUrlForBuggyXhr_cases url) as [->|(c & rest & _ & -> & ->)]; simpl; lia.
  - unfold starts_with, fixUrlForBuggyXhr.
    by destruct (strip_prefix "file:///" url).
Qed.

(** X15: fixing a URL twice is fixing it once: the result of the fix
    never starts with [file:///] followed by a drive. *)
Theorem fixUrlForBuggyXhr_idempotent :
  forall url : string,
    fixUrlForBuggyXhr (fixUrlForBuggyXhr url) = fixUrlForBuggyXhr url.
Proof.
  intros url.
  destruct (fixUrlForBuggyXhr_cases url) as [Heq|(c & rest & Hc & _ & ->)];
    [by rewrite !Heq|].
  unfold fixUrlForBuggyXhr at 1.
  assert (strip_prefix "file:///" (String.append "file://" (String c (String ":" rest)))
          = None) as ->; [|done].
  change (strip_prefix "/" (String c (String ":" rest)) = None).
  cbn [strip_prefix]. by rewrite (letter_not_slash c Hc).
Qed.

Lemma starts_with_file_fix (url : string) :
  starts_with "file:" (fixUrlForBuggyXhr url) = starts_with "file:" url.
Proof.
  destruct (fixUrlForBuggyXhr_cases url) as [->|(c & rest & _ & -> & ->)]; done.
Qed.

(** X16: after [open], [getAllResponseHeaders] answers [null], without
    asking the underlying request, exactly when the URL, resolved
    against the document's, starts with [file:]; the fix of the URL
    does not change that. *)
Theorem getAllResponseHeaders_null_for_files :
  forall (resolveHref : string -> string -> string) (J : Type) (doc : document J)
         (method url : string) (async user password : value),
    getAllResponseHeaders (fst (open resolveHref doc method url async user password)) =
      (if starts_with "file:" (resolveHref (URL doc) url)
       then HeadersNull else HeadersOfUnderlying) /\
    getAllResponseHeaders new = HeadersOfUnderlying.
Proof.
  intros resolveHref J doc method url async user password.
  split; [|done]. unfold getAllResponseHeaders, open. simpl.
  by rewrite starts_with_file_fix.
Qed.

End XhrProps.

(** ** More on getComputedStyle *)

Module CssProps.
Import Css CssFacts.

Lemma append_cons (c : ascii) (s r : string) :
  String.append (String c s) r = String c (String.append s r).
Proof. reflexivity. Qed.

Lemma append_nil_r (s : string) : String.append s EmptyString = s.
Proof. induction s as [|c s IH]; [done|]. by rewrite append_cons, IH. Qed.

Lemma append_assoc (a b c : string) :
  String.append (String.append a b) c = String.append a (String.append b c).
Proof. induction a as [|x a IH]; [done|]. by rewrite !append_cons, IH. Qed.

Lemma scan_append (s : string) :
  (forall m r, scan s = (m, r) -> String.append m r = s) /\
  (forall q m r, inquote q s = Some (m, r) -> String.append m r = s).
Proof.
  induction s as [|c s [IHs IHq]]; simpl.
  - split; [|done]. by intros m r [= <- <-].
  - split.
    + intros m r. destruct (Ascii.eqb c comma); [by intros [= <- <-]|].
      destruct (Ascii.eqb c dquote || Ascii.eqb c squote).
      * destruct (inquote c s) as [[m' r']|] eqn:Hq; [|by intros [= <- <-]].
        intros [= <- <-]. by rewrite append_cons, (IHq c m' r' Hq).
      * destruct (scan s) as [m' r'] eqn:Hs. intros [= <- <-].
        by rewrite append_cons, (IHs m' r' eq_refl).
    + intros q m r. destruct (Ascii.eqb c q).
      * destruct (scan s) as [m' r'] eqn:Hs. intros [= <- <-].
        by rewrite append_cons, (IHs m' r' eq_refl).
      * destruct (inquote q s) as [[m' r']|] eqn:Hq; [|done].
        intros [= <- <-]. by rewrite append_cons, (IHq q m' r' Hq).
Qed.

Lemma split_loop_join (fuel : nat) (pending s : string) :
  String.length s < fuel ->
  join (split_loop fuel pending s) = String.append pending s /\
  exists n, length (split_loop fuel pending s) = 2 * n + 1.
Proof.
  revert pending s. induction fuel as [|fuel IH]; intros pending s Hlen; [lia|].
  destruct s as [|c s].
  - simpl. split; [done|]. by exists 0.
  - cbn [split_loop].
    destruct (scan (String c s)) as [m rest] eqn:Hscan.
    pose proof (proj1 (scan_length (String c s)) m rest Hscan) as Hl.
    pose proof (proj1 (scan_append (String c s)) m rest Hscan) as Ha.
    simpl in Hlen, Hl.
    destruct m as [|a m].
    + destruct (IH (String.append pending (String c EmptyString)) s) as [Hj [n Hn]]; [lia|].
      split; [|by exists n]. rewrite Hj, append_assoc. done.
    + simpl in Hl. destruct (IH EmptyString rest) as [Hj [n Hn]]; [lia|].
      split.
      * cbn [join fold_right]. fold (join (split_loop fuel EmptyString rest)).
        rewrite Hj. change (String.append EmptyString rest) with rest. by rewrite Ha.
      * exists (S n). cbn [length]. lia.
Qed.

(** X17: splitting a selector text loses nothing: the pieces, put
    together in order, are the text again; and there is an odd number
    of them (what stands between the selectors, then a selector, and
    so on, ending with what follows the last selector). *)
Theorem split_keeps_the_text :
  forall s : string,
    join (split s) = s /\ exists n, length (split s) = 2 * n + 1.
Proof.
  intros s. unfold split.
  destruct (split_loop_join (S (String.length s)) EmptyString s) as [Hj Hn]; [lia|].
  split; [exact Hj|exact Hn].
Qed.

Lemma scan_plain (s : string) : plain s = true -> scan s = (s, EmptyString).
Proof.
  induction s as [|c s IH]; simpl; [done|].
  intros [[Hc Hq]%andb_prop Hs]%andb_prop.
  apply negb_true_iff in Hc, Hq. by rewrite Hc, Hq, (IH Hs).
Qed.

Lemma split_plain (s : string) :
  plain s = true -> s <> EmptyString -> split s = [EmptyString; s; EmptyString].
Proof.
  intros Hp Hne. destruct s as [|c s]; [done|].
  unfold split. cbn [split_loop String.length]. by rewrite (scan_plain _ Hp).
Qed.

Lemma plain_not_comma (s : string) : plain s = true -> String.eqb s "," = false.
Proof.
  destruct s as [|c s]; [done|]. simpl.
  intros [[Hc _]%andb_prop _]%andb_prop. apply negb_true_iff in Hc.
  unfold comma in Hc. by rewrite Hc.
Qed.

(** X18: for a rule whose selector text is not empty and has no comma
    and no quote in it, the text is the one selector asked of the
    element: the rule's declarations are copied if the element matches
    it, and nothing happens if it does not match or if matching throws. *)
Theorem single_selector_rule :
  forall (B : Type) (D : Declaration B) (node : element) (cs : B) (text : string)
         (st : style) (m : option (list string)) (rs : option (list rule)),
    plain text = true -> text <> EmptyString ->
    split text = [EmptyString; text; EmptyString] /\
    setPropertiesFromRule node cs (Rule (Some text) st m rs) =
      (if matchesDontThrow node text then copy_style st cs else cs).
Proof.
  intros B D node cs text st m rs Hp Hne.
  split; [by apply split_plain|].
  unfold setPropertiesFromRule. simpl.
  assert (String.eqb text "" = false) as Hne' by (by apply String.eqb_neq).
  rewrite Hne', (split_plain text Hp Hne). simpl.
  rewrite Hne', (plain_not_comma text Hp). simpl.
  by destruct (matchesDontThrow node text).
Qed.

Lemma single_selector_rule_witness :
  setPropertiesFromRule (D := taking_block) plain_div []
    (Rule (Some "div") [("color", ("red", ""))] None None) = [("color", ("red", ""))] /\
  setPropertiesFromRule (D := taking_block) plain_div []
    (Rule (Some "p") [("color", ("red", ""))] None None) = [].
Proof.
  split.
  - apply (single_selector_rule style taking_block plain_div [] "div"
             [("color", ("red", ""))] None None); [reflexivity|discriminate].
  - apply (single_selector_rule style taking_block plain_div [] "p"
             [("color", ("red", ""))] None None); [reflexivity|discriminate].
Defined.

Lemma inline_write_is_read (B : Type) (D : Declaration B) (st : style) (p : string)
    (names : list string) (cs : B) :
  takes (p, (getPropertyValue st p, getPropertyPriority st p)) ->
  (forall q, In q names -> q <> p ->
             leaves p (q, (getPropertyValue st q, getPropertyPriority st q))) ->
  In p names \/ read_value cs p = getPropertyValue st p ->
  read_value
    (apply_writes
       (map (fun property => (property, (getPropertyValue st property,
                                         getPropertyPriority st property))) names) cs) p =
  getPropertyValue st p.
Proof.
  intros Ht Hl. revert cs. induction names as [|n names IH]; intros cs Hor.
  - destruct Hor as [[]|Hr]. exact Hr.
  - change (apply_writes (map _ (n :: names)) cs)
      with (apply_writes
              (map (fun property => (property, (getPropertyValue st property,
                                                getPropertyPriority st property))) names)
              (setProperty n (getPropertyValue st n) (getPropertyPriority st n) cs)).
    apply IH.
    + intros q Hq. apply Hl. by right.
    + destruct (string_dec n p) as [->|Hne].
      * right. apply (Ht cs).
      * destruct Hor as [[Heq|Hin]|Hr]; [done|by left|].
        right. rewrite <- Hr. apply (Hl n); [by left|done].
Qed.

(** X19: the inline style comes last: when [getComputedStyle] returns,
    for a property the element's inline style names, the block reads
    the inline value, whatever the sheets wrote before, provided the
    block takes that value for the property and the inline
    declarations for other properties leave it alone. *)
Theorem inline_style_wins :
  forall (B : Type) (D : Declaration B) (defaultStyleSheet : sheet) (node : element)
         (property : string) (cs : B),
    getComputedStyle defaultStyleSheet node = Js.Normal cs ->
    In property (map fst (estyle node)) ->
    takes (property, (getPropertyValue (estyle node) property,
                      getPropertyPriority (estyle node) property)) ->
    (forall q, In q (map fst (estyle node)) -> q <> property ->
       leaves property (q, (getPropertyValue (estyle node) q,
                            getPropertyPriority (estyle node) q))) ->
    read_value cs property = getPropertyValue (estyle node) property.
Proof.
  intros B D d node p cs Hcs Hin Ht Hl.
  unfold getComputedStyle in Hcs.
  destruct (readStylesFromStyleSheet node new_block d) as [cs1|]; [|done].
  destruct (read_sheets node cs1 (styleSheets node)) as [cs2|]; [|done].
  injection Hcs as <-. rewrite copy_style_writes. unfold writes_of_style.
  apply inline_write_is_read; [done|done|by left].
Qed.

Lemma inline_style_wins_witness :
  read_value (Declaration := taking_block) [("color", ("blue", ""))] "color" = "blue".
Proof.
  apply (inline_style_wins style taking_block red_sheet blue_div "color"
           [("color", ("blue", ""))]).
  - reflexivity.
  - simpl. by left.
  - apply taking_block_takes.
  - intros q [<-|[]] Hne. done.
Defined.

(** X20: a rule with a media list that does not hold ["screen"] counts
    for nothing, wherever it stands in a sheet: reading the sheet with
    it or without it gives the same declarations. *)
Theorem media_rule_without_screen_is_ignored :
  forall (B : Type) (D : Declaration B) (node : element) (cs : B) (l1 l2 : sheet)
         (r : rule) (m : list string),
    media r = Some m -> has_screen m = false ->
    readStylesFromStyleSheet node cs (l1 ++ r :: l2) =
    readStylesFromStyleSheet node cs (l1 ++ l2).
Proof.
  intros B D node cs l1 l2 r m Hm Hs. revert cs.
  induction l1 as [|a l1 IH]; intros cs; simpl.
  - by rewrite Hm, Hs.
  - destruct (media a) as [ma|]; [|apply IH].
    destruct (has_screen ma); [|apply IH].
    destruct (cssRules a); [apply IH|done].
Qed.

Lemma media_rule_without_screen_is_ignored_witness :
  readStylesFromStyleSheet (D := taking_block) plain_div []
    ([] ++ Rule None [] (Some ["print"]) (Some red_sheet) :: red_sheet) =
  readStylesFromStyleSheet (D := taking_block) plain_div [] ([] ++ red_sheet).
Proof.
  apply (media_rule_without_screen_is_ignored style taking_block plain_div [] [] red_sheet
           (Rule None [] (Some ["print"]) (Some red_sheet)) ["print"]); reflexivity.
Defined.

Lemma read_rules_without_media (B : Type) (D : Declaration B) (node : element)
    (rs : list rule) (cs : B) :
  Forall (fun r => media r = None) rs ->
  readStylesFromStyleSheet node cs rs = Js.Normal (fold_left (setPropertiesFromRule node) rs cs).
Proof.
  intros Hall. revert cs. induction Hall as [|r rs Hr _ IH]; intros cs; simpl; [done|].
  by rewrite Hr, IH.
Qed.

(** X21: putting rules that have no media list of their own under a
    media list that holds ["screen"] changes nothing: the rule that
    groups them reads like the rules themselves. *)
Theorem screen_media_rule_reads_like_its_rules :
  forall (B : Type) (D : Declaration B) (node : element) (cs : B) (sel : option string)
         (st : style) (m : list string) (rs : list rule),
    has_screen m = true ->
    Forall (fun r => media r = None) rs ->
    readStylesFromStyleSheet node cs [Rule sel st (Some m) (Some rs)] =
    readStylesFromStyleSheet node cs rs.
Proof.
  intros B D node cs sel st m rs Hs Hall. simpl. rewrite Hs.
  by rewrite read_rules_without_media.
Qed.

Lemma screen_media_rule_reads_like_its_rules_witness :
  readStylesFromStyleSheet (D := taking_block) plain_div []
    [Rule None [] (Some ["screen"]) (Some red_sheet)] =
  readStylesFromStyleSheet (D := taking_block) plain_div [] red_sheet.
Proof.
  apply (screen_media_rule_reads_like_its_rules style taking_block plain_div [] None []
           ["screen"] red_sheet).
  - reflexivity.
  - repeat constructor.
Defined.

Lemma rule_matches_ext (n1 n2 : element) (r : rule) :
  (forall sel, selector_matches n1 sel = selector_matches n2 sel) ->
  rule_matches n1 r = rule_matches n2 r.
Proof.
  intros Hm. unfold rule_matches. destruct (selectorText r) as [text|]; [|done].
  f_equal. induction (split text) as [|sel sels IH]; simpl; [done|].
  by rewrite Hm, IH.
Qed.

Lemma writes_of_rules_ext (n1 n2 : element) (rs : list rule) :
  (forall sel, selector_matches n1 sel = selector_matches n2 sel) ->
  flat_map (writes_of_rule n1) rs = flat_map (writes_of_rule n2) rs.
Proof.
  intros Hm. induction rs as [|r rs IH]; simpl; [done|].
  unfold writes_of_rule at 1 3. by rewrite (rule_matches_ext n1 n2 r Hm), IH.
Qed.

Lemma writes_of_sheet_ext (n1 n2 : element) (sh : sheet) :
  (forall sel, selector_matches n1 sel = selector_matches n2 sel) ->
  writes_of_sheet n1 sh = writes_of_sheet n2 sh.
Proof.
  intros Hm. induction sh as [|r sh IH]; simpl; [done|].
  rewrite IH. destruct (media r) as [m|].
  - destruct (includes_screen m); [|done].
    destruct (cssRules r) as [rs|]; [|done].
    by rewrite (writes_of_rules_ext n1 n2 rs Hm).
  - unfold writes_of_rule. by rewrite (rule_matches_ext n1 n2 r Hm).
Qed.

(** X22: matching that throws is matching that fails: two elements
    with the same inline style and the same sheets, whose [matches]
    differ only in throwing where the other answers [false], have the
    same computed style. *)
Theorem throwing_selector_counts_as_no_match :
  forall (B : Type) (D : Declaration B) (defaultStyleSheet : sheet) (n1 n2 : element),
    estyle n1 = estyle n2 -> styleSheets n1 = styleSheets n2 ->
    (forall sel, matches n1 sel = matches n2 sel \/
                 (matches n1 sel = None /\ matches n2 sel = Some false)) ->
    getComputedStyle defaultStyleSheet n1 = getComputedStyle defaultStyleSheet n2.
Proof.
  intros B D d n1 n2 Hst Hsh Hm.
  assert (forall sel, selector_matches n1 sel = selector_matches n2 sel) as Hm'.
  { intros sel. unfold selector_matches.
    destruct (Hm sel) as [->|[-> ->]]; done. }
  assert (forall shs, writes_of_sheets n1 shs = writes_of_sheets n2 shs) as Hshs.
  { intros shs. induction shs as [|sh shs IH]; simpl; [done|].
    by rewrite (writes_of_sheet_ext n1 n2 sh Hm'), IH. }
  rewrite !getComputedStyle_writes. unfold writes.
  by rewrite Hst, Hsh, (writes_of_sheet_ext n1 n2 d Hm'), Hshs.
Qed.

Lemma throwing_selector_counts_as_no_match_witness :
  getComputedStyle (D := taking_block) []
    (mkElement [] (fun sel => if String.eqb sel "div" then Some true else None)
               [red_sheet]) =
  getComputedStyle (D := taking_block) []
    (mkElement [] (fun sel => if String.eqb sel "div" then Some true else Some false)
               [red_sheet]).
Proof.
  apply (throwing_selector_counts_as_no_match style taking_block []
           (mkElement [] (fun sel => if String.eqb sel "div" then Some true else None)
                      [red_sheet])
           (mkElement [] (fun sel => if String.eqb sel "div" then Some true else Some false)
                      [red_sheet]) eq_refl eq_refl).
  intros sel. simpl. destruct (String.eqb sel "div"); [by left|by right].
Defined.

Lemma read_sheet_throws (B : Type) (D : Declaration B) (node : element) (cs : B)
    (l1 l2 : sheet) (r : rule) (m : list string) :
  media r = Some m -> has_screen m = true -> cssRules r = None ->
  readStylesFromStyleSheet node cs (l1 ++ r :: l2) = Js.Throw Js.TypeError.
Proof.
  intros Hm Hs Hc. revert cs. induction l1 as [|a l1 IH]; intros cs; simpl.
  - by rewrite Hm, Hs, Hc.
  - destruct (media a) as [ma|]; [|apply IH].
    destruct (has_screen ma); [|apply IH].
    destruct (cssRules a); [apply IH|done].
Qed.

Lemma read_sheet_throws_TypeError (B : Type) (D : Declaration B) (node : element)
    (sh : sheet) (cs : B) (e : Js.exn) :
  readStylesFromStyleSheet node cs sh = Js.Throw e -> e = Js.TypeError.
Proof.
  revert cs. induction sh as [|r sh IH]; intros cs; simpl; [done|].
  destruct (media r) as [m|]; [|apply IH].
  destruct (has_screen m); [|apply IH].
  destruct (cssRules r) as [rs|]; [apply IH|].
  by intros [= <-].
Qed.

Lemma read_sheets_throws (B : Type) (D : Declaration B) (node : element) (cs : B)
    (shs1 shs2 : list sheet) (sh : sheet) :
  (forall cs', readStylesFromStyleSheet node cs' sh = Js.Throw Js.TypeError) ->
  read_sheets node cs (shs1 ++ sh :: shs2) = Js.Throw Js.TypeError.
Proof.
  intros Hsh. revert cs. induction shs1 as [|a shs1 IH]; intros cs; simpl.
  - by rewrite Hsh.
  - destruct (readStylesFromStyleSheet node cs a) as [cs'|e] eqn:Ha; [apply IH|].
    by rewrite (read_sheet_throws_TypeError B D node a cs e Ha).
Qed.

(** X23: a rule with a media list that holds ["screen"] and with no
    [cssRules] (an import rule) makes [getComputedStyle] throw a
    [TypeError], wherever the rule stands in the built-in sheet or in a
    sheet of the document, and whatever the element. *)
Theorem screen_rule_without_cssRules_throws :
  forall (B : Type) (D : Declaration B) (defaultStyleSheet : sheet) (node : element)
         (l1 l2 : sheet) (r : rule) (m : list string),
    media r = Some m -> has_screen m = true -> cssRules r = None ->
    (defaultStyleSheet = l1 ++ r :: l2 \/
     exists shs1 shs2, styleSheets node = shs1 ++ (l1 ++ r :: l2) :: shs2) ->
    getComputedStyle defaultStyleSheet node = Js.Throw Js.TypeError.
Proof.
  intros B D d node l1 l2 r m Hm Hs Hc [->|(shs1 & shs2 & Hshs)]; unfold getComputedStyle.
  - by rewrite (read_sheet_throws B D node _ l1 l2 r m Hm Hs Hc).
  - destruct (readStylesFromStyleSheet node new_block d) as [cs|e] eqn:Hd.
    + rewrite Hshs, read_sheets_throws; [done|].
      intros cs'. by apply (read_sheet_throws B D node cs' l1 l2 r m).
    + by rewrite (read_sheet_throws_TypeError B D node d _ e Hd).
Qed.

Lemma screen_rule_without_cssRules_throws_witness :
  getComputedStyle (D := taking_block) []
    (mkElement [] (fun sel => Some (String.eqb sel "div")) [import_sheet]) =
  Js.Throw Js.TypeError.
Proof.
  apply (screen_rule_without_cssRules_throws style taking_block []
           (mkElement [] (fun sel => Some (String.eqb sel "div")) [import_sheet])
           [] red_sheet (Rule None [] (Some ["screen"]) None) ["screen"]);
    try reflexivity.
  right. by exists [], [].
Defined.

End CssProps.
